(** * OpenAdapt event persistence: a shallow embedding of [openadapt/crud.py]

    The development follows the module top to bottom:
    - [Py]: the few pieces of Python semantics the module relies on
      (exceptions, list indexing with negative indices, [list.pop],
      truthiness of optional byte strings, calls that mutate and raise);
    - [Trimmer]: [filter_stop_sequences];
    - [Writer]: [_insert], the batched writer, and the [insert_*] wrappers;
    - [Query]: [_get], [get_action_events] and [get_window_events];
    - [Recordings]: [insert_recording], [get_latest_recording] and
      [get_recording];
    - [DiffChain]: [get_screenshots] and [save_screenshot_diff] over a store
      of screenshot objects.

    All definitions come first, the properties after them. *)

From Stdlib Require Import ZArith.
From stdpp Require Import base strings list gmap sorting.


(* ===================================================================== *)
(** ** Python semantics used by the module *)
(* ===================================================================== *)

Module Py.

(** The exceptions that can leave the functions of [crud.py]. *)
Inductive exn :=
| AssertionError (msg : string)
| IndexError (msg : string)
| AttributeError (msg : string)
| CommitFailure
| DiffComputationFailure.

(** Outcome of a call: a returned value or a raised exception. *)
Inductive outcome (A : Type) :=
| Ok (a : A)
| Raise (e : exn).
Arguments Ok {A} a.
Arguments Raise {A} e.

(** [l[i]] for a Python list and a (possibly negative) integer index;
    [None] stands for [IndexError: list index out of range]. *)
Definition getitem {A} (l : list A) (i : Z) : option A :=
  if (0 <=? i)%Z then l !! Z.to_nat i
  else if (- Z.of_nat (length l) <=? i)%Z
       then l !! Z.to_nat (Z.of_nat (length l) + i)
       else None.

(** [l.pop()]: drops the last element; [None] stands for
    [IndexError: pop from empty list]. *)
Definition pop {A} (l : list A) : option (list A) :=
  match l with
  | [] => None
  | _ :: _ => Some (take (length l - 1) l)
  end.

(** Byte strings, and the truth value of an optional one:
    [None] and [b""] are falsy. *)
Definition bytes := list Byte.byte.

#[export] Instance byte_eq_dec : EqDecision Byte.byte := Byte.byte_eq_dec.
#[export] Instance bytes_eq_dec : EqDecision bytes := list_eq_dec.

Definition truthy (b : option bytes) : bool :=
  match b with
  | None => false
  | Some [] => false
  | Some (_ :: _) => true
  end.

(** Values stored in event dictionaries. *)
Inductive value :=
| VNone
| VInt (z : Z)
| VStr (s : string)
| VBytes (b : bytes).

(** Computations that thread a state and may raise: the state is what
    the call has mutated by the time it returns or raises. *)
Definition M (S A : Type) : Type := S → outcome A * S.

Definition ret {S A} (a : A) : M S A := λ s, (Ok a, s).

Definition raise {S A} (e : exn) : M S A := λ s, (Raise e, s).

Definition bind {S A B} (m : M S A) (k : A → M S B) : M S B :=
  λ s, match m s with
       | (Ok a, s') => k a s'
       | (Raise e, s') => (Raise e, s')
       end.

Definition gets {S A} (f : S → A) : M S A := λ s, (Ok (f s), s).

Definition modify {S} (f : S → S) : M S unit := λ s, (Ok tt, f s).

End Py.
Import Py.

Notation "'let*' x ':=' m 'in' k" := (bind m (λ x, k))
  (at level 10, x name, m at level 100, k at level 200).
Notation "m ';;' k" := (bind m (λ _, k))
  (at level 100, k at level 200, right associativity).

(* ===================================================================== *)
(** ** Stop-sequence trimmer: [filter_stop_sequences] *)
(* ===================================================================== *)

Module Trimmer.

(** The columns of [ActionEvent] that the trimmer reads, with the two
    timestamps every event row carries. *)
Record ActionEvent := mkActionEvent {
  recording_timestamp : Z;
  timestamp : Z;
  name : string;
  canonical_key_char : option string;
  canonical_key_name : option string;
}.

(** [attr == token] for a nullable string attribute. *)
Definition attr_eq (attr : option string) (token : string) : bool :=
  bool_decide (attr = Some token).

(** [attr in sequence] for a nullable string attribute and a list of
    tokens. *)
Definition attr_in (attr : option string) (sequence : list string) : bool :=
  match attr with
  | Some s => bool_decide (s ∈ sequence)
  | None => false
  end.

(** The guard of the Ctrl+C branch (lines 266-270). *)
Definition ends_with_ctrl_c (action_events : list ActionEvent) : bool :=
  bool_decide (2 ≤ length action_events) &&
  match getitem action_events (-1), getitem action_events (-2) with
  | Some last, Some before =>
      attr_eq (canonical_key_char last) "c"
      && attr_eq (canonical_key_name before) "ctrl"
  | _, _ => false
  end.

(** The inner loop (lines 289-310) for one sequence.  The loop visits
    [action_events[j]] for [j] from the last index down to [0], that is,
    it walks [rev action_events]; [idx] is [stop_sequence_indices[i]] and
    [num] is [num_to_remove].  The token [sequence[idx]] is read on every
    iteration, before anything else. *)
Fixpoint scan (sequence : list string) (events_rev : list ActionEvent)
    (idx : Z) (num : nat) : outcome (Z * nat) :=
  match events_rev with
  | [] => Ok (idx, num)
  | e :: rest =>
      match getitem sequence idx with
      | None => Raise (IndexError "list index out of range")
      | Some token =>
          if (attr_eq (canonical_key_char e) token
              || attr_eq (canonical_key_name e) token)
             && bool_decide (name e = "press")
          then scan sequence rest (idx - 1)%Z (S num)
          else if bool_decide (name e = "release")
                  && (attr_in (canonical_key_char e) sequence
                      || attr_in (canonical_key_name e) sequence)
          then scan sequence rest idx (S num)
          else Ok (idx, num)
      end
  end.

(** The outer loop (lines 287-316) from sequence number [i] on.
    [stop_sequence_indices[i]] starts at [len(sequence) - 1] and is read
    and written only while sequence [i] is the current one, so each
    sequence carries its own cursor.  [num] is shared by all sequences:
    it is set to [0] once, before the loop.  The result is
    [(sequence_to_remove, num_to_remove)]. *)
Fixpoint try_sequences (sequences : list (list string)) (i : nat)
    (events_rev : list ActionEvent) (num : nat) : outcome (Z * nat) :=
  match sequences with
  | [] => Ok ((-1)%Z, num)
  | sequence :: rest =>
      match scan sequence events_rev (Z.of_nat (length sequence) - 1)%Z num with
      | Raise e => Raise e
      | Ok (idx, num') =>
          if (idx =? -1)%Z then Ok (Z.of_nat i, num')
          else try_sequences rest (S i) events_rev num'
      end
  end.

(** [for _ in range(0, n): action_events.pop()]. *)
Fixpoint pop_times (n : nat) (action_events : list ActionEvent)
    : outcome unit * list ActionEvent :=
  match n with
  | 0 => (Ok tt, action_events)
  | S n' =>
      match pop action_events with
      | None => (Raise (IndexError "pop from empty list"), action_events)
      | Some l => pop_times n' l
      end
  end.

(** [filter_stop_sequences], with [config.STOP_SEQUENCES] as a parameter.
    The function returns [None] and mutates its argument: the result
    pairs the outcome with the list as the call leaves it. *)
Definition filter_stop_sequences (STOP_SEQUENCES : list (list string))
    (action_events : list ActionEvent) : outcome unit * list ActionEvent :=
  if ends_with_ctrl_c action_events
  then pop_times 2 action_events
  else
    match try_sequences STOP_SEQUENCES 0 (rev action_events) 0 with
    | Raise e => (Raise e, action_events)
    | Ok (sequence_to_remove, num_to_remove) =>
        if (sequence_to_remove =? -1)%Z then (Ok tt, action_events)
        else pop_times num_to_remove action_events
    end.

(** What one backward scan for [sequence], started afresh, consumes:
    the events counted while matching that sequence alone. *)
Definition consumed_by (sequence : list string)
    (action_events : list ActionEvent) : outcome (Z * nat) :=
  scan sequence (rev action_events) (Z.of_nat (length sequence) - 1)%Z 0.

(** Event constructors for examples. *)
Definition press_char (c : string) : ActionEvent :=
  mkActionEvent 1 0 "press" (Some c) None.
Definition press_key (k : string) : ActionEvent :=
  mkActionEvent 1 0 "press" None (Some k).
Definition release_key (k : string) : ActionEvent :=
  mkActionEvent 1 0 "release" None (Some k).
Definition release_char (c : string) : ActionEvent :=
  mkActionEvent 1 0 "release" (Some c) None.

(** An event that is a press matching the token, by character or by
    key name: what the first branch of the scan tests. *)
Definition presses (e : ActionEvent) (token : string) : Prop :=
  name e = "press"
  ∧ (canonical_key_char e = Some token ∨ canonical_key_name e = Some token).

(** An event that is neither a key press nor a key release (a click, a
    move, a scroll). *)
Definition not_a_key_event (e : ActionEvent) : Prop :=
  name e ≠ "press" ∧ name e ≠ "release".

Definition click : ActionEvent := mkActionEvent 1 0 "click" None None.

End Trimmer.

(* ===================================================================== *)
(** ** Batched writer: [_insert] *)
(* ===================================================================== *)

Module Writer.

(** A mapped table: its name and the names of [table.__table__.columns],
    in declaration order (column names are unique within a table). *)
Record Table := mkTable {
  table_name : string;
  columns : list string;
}.

(** An event dictionary and a row to insert are both [dict[str, Any]]. *)
Abbreviation Row := (gmap string value).

(** The session [db]: multi-row inserts executed in the open transaction,
    and those already committed, oldest first. *)
Record Session := mkSession {
  pending : list (string * list Row);
  committed : list (string * list Row);
}.

(** What [db.execute] returns: a handle that does not contain the rows. *)
Record Result := mkResult {
  result_table : string;
  rowcount : nat;
}.

(** [{column.name: None for column in table.__table__.columns}]. *)
Definition empty_obj (cols : list string) : Row :=
  foldr (λ c obj, <[c := VNone]> obj) ∅ cols.

(** One iteration of the loop of lines 50-54 on [(db_obj, event_data)]. *)
Definition move_key (st : Row * Row) (key : string) : Row * Row :=
  match st.2 !! key with
  | Some val => (<[key := val]> st.1, delete key st.2)
  | None => st
  end.

(** Lines 49-54: the row built for the table and what is left of
    [event_data] afterwards. *)
Definition fill (table : Table) (event_data : Row) : Row * Row :=
  foldl move_key (empty_obj (columns table), event_data) (columns table).

(** The row [_insert] builds for a record. *)
Definition row_of (table : Table) (event_data : Row) : Row :=
  (fill table event_data).1.

Section WithStorage.

(** [BATCH_SIZE] is a module constant ([1] in the source); the storage
    decides whether [db.execute] and [db.commit] go through or raise. *)
Variable BATCH_SIZE : Z.
Variable execute_ok : Session → Table → list Row → bool.
Variable commit_ok : Session → bool.

(** [db.execute(sa.insert(table), to_insert)]. *)
Definition db_execute (db : Session) (table : Table) (to_insert : list Row)
    : outcome Result * Session :=
  if execute_ok db table to_insert
  then (Ok (mkResult (table_name table) (length to_insert)),
        mkSession (pending db ++ [(table_name table, to_insert)])
                  (committed db))
  else (Raise CommitFailure, db).

(** [db.commit()]. *)
Definition db_commit (db : Session) : outcome unit * Session :=
  if commit_ok db
  then (Ok tt, mkSession [] (committed db ++ pending db))
  else (Raise CommitFailure, db).

(** [_insert(event_data, table, buffer)].  The buffer is a list shared
    with the caller (or [None]); the result gives the outcome, the
    buffer and the session as the call leaves them.  The assertion's
    message is the leftover dictionary itself; it is not rendered. *)
Definition _insert (event_data : Row) (table : Table)
    (buffer : option (list Row)) (db : Session)
    : outcome (option Result) * option (list Row) * Session :=
  let '(db_obj, event_data') := fill table event_data in
  if bool_decide (event_data' = ∅) then
    let buffer1 := (λ b, b ++ [db_obj]) <$> buffer in
    let flush :=
      match buffer1 with
      | None => true
      | Some b => bool_decide (BATCH_SIZE ≤ Z.of_nat (length b))%Z
      end in
    if flush then
      let to_insert :=
        match buffer1 with
        | Some (r :: b) => r :: b
        | _ => [db_obj]
        end in
      match db_execute db table to_insert with
      | (Raise e, db1) => (Raise e, buffer1, db1)
      | (Ok result, db1) =>
          match db_commit db1 with
          | (Raise e, db2) => (Raise e, buffer1, db2)
          | (Ok _, db2) =>
              let buffer2 :=
                match buffer1 with
                | Some (_ :: _) => Some []
                | _ => buffer1
                end in
              (Ok (Some result), buffer2, db2)
          end
      end
    else (Ok None, buffer1, db)
  else (Raise (AssertionError "event_data"), buffer, db).

(** Successive calls of [_insert] with the same table and the same
    buffer, one per record, stopping at the first exception. *)
Fixpoint insert_each (records : list Row) (table : Table)
    (buffer : list Row) (db : Session)
    : outcome unit * list Row * Session :=
  match records with
  | [] => (Ok tt, buffer, db)
  | event_data :: rest =>
      match _insert event_data table (Some buffer) db with
      | (Raise e, b, db') => (Raise e, default buffer b, db')
      | (Ok _, b, db') => insert_each rest table (default buffer b) db'
      end
  end.

(** [insert_action_event], [insert_screenshot] and
    [insert_window_event] (lines 72-125) differ in the table and the
    buffer only: each adds the two timestamps to a copy of the
    caller's dictionary ([{**event_data, "timestamp": ...,
    "recording_timestamp": ...}]) and hands it to [_insert]. *)
Definition inject_timestamps (recording_timestamp event_timestamp : Z)
    (event_data : Row) : Row :=
  <["recording_timestamp" := VInt recording_timestamp]>
    (<["timestamp" := VInt event_timestamp]> event_data).

(** A wrapper's call of [_insert] with its module-level buffer: the
    wrappers return [None], whatever [_insert] returns. *)
Definition insert_into (table : Table) (buffer : list Row)
    (event_data : Row) (db : Session)
    : outcome unit * list Row * Session :=
  match _insert event_data table (Some buffer) db with
  | (Ok _, b, db') => (Ok tt, default buffer b, db')
  | (Raise e, b, db') => (Raise e, default buffer b, db')
  end.

(** [insert_action_event] (lines 72-87), with the [ActionEvent] table
    and the [action_events] buffer as parameters. *)
Definition insert_action_event (table : Table) (action_events : list Row)
    (recording_timestamp event_timestamp : Z) (event_data : Row)
    (db : Session) : outcome unit * list Row * Session :=
  insert_into table action_events
    (inject_timestamps recording_timestamp event_timestamp event_data) db.

(** [insert_screenshot] (lines 90-105), likewise. *)
Definition insert_screenshot (table : Table) (screenshots : list Row)
    (recording_timestamp event_timestamp : Z) (event_data : Row)
    (db : Session) : outcome unit * list Row * Session :=
  insert_into table screenshots
    (inject_timestamps recording_timestamp event_timestamp event_data) db.

(** [insert_window_event] (lines 108-125), likewise. *)
Definition insert_window_event (table : Table) (window_events : list Row)
    (recording_timestamp event_timestamp : Z) (event_data : Row)
    (db : Session) : outcome unit * list Row * Session :=
  insert_into table window_events
    (inject_timestamps recording_timestamp event_timestamp event_data) db.

(** [insert_perf_stat] (lines 128-148), with the [PerformanceStat]
    table and the [performance_stats] buffer as parameters; the two
    times are stored as they come. *)
Definition insert_perf_stat (table : Table) (performance_stats : list Row)
    (recording_timestamp : Z) (event_type : string)
    (start_time end_time : value) (db : Session)
    : outcome unit * list Row * Session :=
  insert_into table performance_stats
    {[ "recording_timestamp" := VInt recording_timestamp;
       "event_type" := VStr event_type;
       "start_time" := start_time;
       "end_time" := end_time ]} db.

(** [insert_memory_stat] (lines 168-177), likewise. *)
Definition insert_memory_stat (table : Table) (memory_stats : list Row)
    (recording_timestamp memory_usage_bytes timestamp : Z) (db : Session)
    : outcome unit * list Row * Session :=
  insert_into table memory_stats
    {[ "recording_timestamp" := VInt recording_timestamp;
       "memory_usage_bytes" := VInt memory_usage_bytes;
       "timestamp" := VInt timestamp ]} db.

End WithStorage.

(** A record has a field the table does not declare. *)
Definition undeclared_field (event_data : Row) (table : Table) : Prop :=
  ∃ key, is_Some (event_data !! key) ∧ key ∉ columns table.

(** A record lacks one of the two timestamps the [insert_*] wrappers
    put into it. *)
Definition omits_timestamps (event_data : Row) : Prop :=
  event_data !! "timestamp" = None
  ∨ event_data !! "recording_timestamp" = None.

(** Modelled from the spec: the [MemoryStat] table of section 6
    ([openadapt.models] is not part of the sources at hand). *)
Definition MemoryStat : Table :=
  mkTable "memory_stat" ["recording_timestamp"; "memory_usage_bytes"; "timestamp"].

(** A storage that accepts everything, and one that rejects every
    commit. *)
Definition accept_execute : Session → Table → list Row → bool := λ _ _ _, true.
Definition accept_commit : Session → bool := λ _, true.
Definition reject_commit : Session → bool := λ _, false.

Definition empty_session : Session := mkSession [] [].

(** Two [MemoryStat] records as [insert_memory_stat] builds them, and
    one without the timestamps. *)
Definition sample1 : Row :=
  {[ "recording_timestamp" := VInt 7; "memory_usage_bytes" := VInt 100;
     "timestamp" := VInt 1 ]}.
Definition sample2 : Row :=
  {[ "recording_timestamp" := VInt 7; "memory_usage_bytes" := VInt 120;
     "timestamp" := VInt 2 ]}.
Definition untimed : Row := {[ "memory_usage_bytes" := VInt 100 ]}.

End Writer.

(* ===================================================================== *)
(** ** Query layer: [_get], [get_action_events], [get_window_events] *)
(* ===================================================================== *)

Module Query.

(** Modelled from the spec: a [Recording] of section 3, identified by
    its creation timestamp, with a description for its session metadata
    ([openadapt.models] is not part of the sources at hand).  For a
    recording that does not exist, [get_recording] and
    [get_latest_recording] return Python's [None] ([.first()] of an
    empty query), hence [option Recording] in the accessors. *)
Record Recording := mkRecording {
  timestamp : Z;
  task_description : string;
}.

(** Modelled from the spec: a [WindowEvent] row of section 6
    ([openadapt.models] is not part of the sources at hand). *)
Record WindowEvent := mkWindowEvent {
  we_recording_timestamp : Z;
  we_timestamp : Z;
  title : string;
}.

(** The two columns [_get] needs from a mapped class. *)
Class BaseModel (A : Type) := {
  recording_timestamp_of : A → Z;
  timestamp_of : A → Z;
}.

#[export] Instance ActionEvent_model : BaseModel Trimmer.ActionEvent := {|
  recording_timestamp_of := Trimmer.recording_timestamp;
  timestamp_of := Trimmer.timestamp;
|}.

#[export] Instance WindowEvent_model : BaseModel WindowEvent := {|
  recording_timestamp_of := we_recording_timestamp;
  timestamp_of := we_timestamp;
|}.

(** The order of [order_by(table.timestamp)]. *)
Definition by_timestamp {A} `{BaseModel A} : relation A :=
  λ a b, (timestamp_of a ≤ timestamp_of b)%Z.

#[export] Instance by_timestamp_dec {A} `{BaseModel A}
  : RelDecision (by_timestamp (A := A)).
Proof. intros a b. unfold by_timestamp. apply _. Defined.

(** [db.query(table).filter(table.recording_timestamp == ts)
      .order_by(table.timestamp).all()] over the rows of the table. *)
Definition _get {A} `{BaseModel A} (rows : list A) (recording_timestamp : Z)
    : list A :=
  merge_sort by_timestamp
    (filter (λ r, recording_timestamp_of r = recording_timestamp) rows).

(** [recording.timestamp] where [recording] may be [None]. *)
Definition recording_timestamp_attr (recording : option Recording)
    : outcome Z :=
  match recording with
  | Some r => Ok (timestamp r)
  | None =>
      Raise (AttributeError "'NoneType' object has no attribute 'timestamp'")
  end.

Section WithConfig.

Variable STOP_SEQUENCES : list (list string).

(** [get_action_events(recording)] over the rows of the action-event
    table. *)
Definition get_action_events (table : list Trimmer.ActionEvent)
    (recording : option Recording) : outcome (list Trimmer.ActionEvent) :=
  match recording with
  | None => Raise (AssertionError "Invalid recording.")
  | Some r =>
      let action_events := _get table (timestamp r) in
      match Trimmer.filter_stop_sequences STOP_SEQUENCES action_events with
      | (Raise e, _) => Raise e
      | (Ok _, action_events') => Ok action_events'
      end
  end.

End WithConfig.

(** [get_window_events(recording)] over the rows of the window-event
    table. *)
Definition get_window_events (table : list WindowEvent)
    (recording : option Recording) : outcome (list WindowEvent) :=
  match recording_timestamp_attr recording with
  | Raise e => Raise e
  | Ok ts => Ok (_get table ts)
  end.

End Query.

(* ===================================================================== *)
(** ** Recordings: [insert_recording], [get_latest_recording],
       [get_recording] *)
(* ===================================================================== *)

Module Recordings.
Import Query.

(** The order of [order_by(sa.desc(Recording.timestamp))]. *)
Definition newest_first : relation Recording :=
  λ a b, (timestamp b ≤ timestamp a)%Z.

#[export] Instance newest_first_dec : RelDecision newest_first.
Proof. intros a b. unfold newest_first. apply _. Defined.

(** [get_latest_recording()] over the rows of the recording table:
    [.limit(1)] keeps at most one row and [.first()] yields it, or
    [None]. *)
Definition get_latest_recording (table : list Recording)
    : option Recording :=
  head (take 1 (merge_sort newest_first table)).

(** [get_recording(timestamp)]: the first row that passes the filter,
    in the order the table yields its rows, or [None]. *)
Definition get_recording (table : list Recording) (timestamp : Z)
    : option Recording :=
  head (filter (λ r, Query.timestamp r = timestamp) table).

Section WithStorage.

(** Whether the storage accepts the commit that leaves it with the
    given rows. *)
Variable commit_ok : list Recording → bool.

(** [insert_recording(recording_data)]: the object built from the
    data is added and committed, and returned as the table holds
    it. *)
Definition insert_recording (recording_data : Recording)
    (table : list Recording) : outcome Recording * list Recording :=
  if commit_ok (table ++ [recording_data])
  then (Ok recording_data, table ++ [recording_data])
  else (Raise CommitFailure, table).

End WithStorage.

Definition accept_recording : list Recording → bool := λ _, true.

(** A recording that is not stored, and tables that hold rows of
    recording [7] only. *)
Definition unstored : Recording := mkRecording 999 "typo".
Definition stored_actions : list Trimmer.ActionEvent :=
  [Trimmer.mkActionEvent 7 1 "press" (Some "a") None].
Definition stored_windows : list WindowEvent :=
  [mkWindowEvent 7 1 "editor"].

End Recordings.

(* ===================================================================== *)
(** ** Screenshot diff chain: [get_screenshots], [save_screenshot_diff] *)
(* ===================================================================== *)

Module DiffChain.

(** Screenshot objects are shared and mutated in place, so they live in
    a store and lists hold references to them. *)
Definition ref := nat.

Record Screenshot := mkScreenshot {
  recording_timestamp : Z;
  timestamp : Z;
  png_data : bytes;
  png_diff_data : option bytes;
  png_diff_mask_data : option bytes;
  prev : option ref;
}.

Abbreviation store := (ref → Screenshot).

Definition set_prev (p : option ref) (s : Screenshot) : Screenshot :=
  mkScreenshot (recording_timestamp s) (timestamp s) (png_data s)
    (png_diff_data s) (png_diff_mask_data s) p.

Definition set_png_diff_data (b : option bytes) (s : Screenshot) : Screenshot :=
  mkScreenshot (recording_timestamp s) (timestamp s) (png_data s)
    b (png_diff_mask_data s) (prev s).

Definition set_png_diff_mask_data (b : option bytes) (s : Screenshot)
    : Screenshot :=
  mkScreenshot (recording_timestamp s) (timestamp s) (png_data s)
    (png_diff_data s) b (prev s).

(** Attribute assignment on the object behind [r]. *)
Definition update (σ : store) (r : ref) (f : Screenshot → Screenshot) : store :=
  λ r', if decide (r' = r) then f (σ r') else σ r'.

(** What a pass does besides mutating screenshots. *)
Inductive effect :=
| ComputeDiff (r : ref)
| ComputeDiffMask (r : ref)
| BulkSave (rs : list ref)
| Commit.

#[export] Instance effect_eq_dec : EqDecision effect.
Proof. solve_decision. Defined.

Definition is_computation (e : effect) : bool :=
  match e with
  | ComputeDiff _ | ComputeDiffMask _ => true
  | _ => false
  end.

Definition is_write (e : effect) : bool :=
  match e with
  | BulkSave _ => true
  | _ => false
  end.

(** The state a pass works on: the objects and the effects so far. *)
Abbreviation state := ((ref → Screenshot) * list effect)%type.

Definition read (r : ref) : M state Screenshot := gets (λ st, st.1 r).
Definition assign (r : ref) (f : Screenshot → Screenshot) : M state unit :=
  modify (λ st, (update st.1 r f, st.2)).
Definition emit (e : effect) : M state unit :=
  modify (λ st, (st.1, st.2 ++ [e])).
Definition computed (b : option bytes) : M state bytes :=
  match b with
  | Some x => ret x
  | None => raise DiffComputationFailure
  end.

(** The mapped class under the current store, for [_get]. *)
Definition Screenshot_model (σ : store) : Query.BaseModel ref := {|
  Query.recording_timestamp_of r := recording_timestamp (σ r);
  Query.timestamp_of r := timestamp (σ r);
|}.

(** Lines 367-368. *)
Definition link (screenshots : list ref) (σ : store) : store :=
  foldl (λ σ' pc, update σ' pc.2 (set_prev (Some pc.1))) σ
        (zip screenshots (drop 1 screenshots)).

(** Lines 369-370. *)
Definition link_first (screenshots : list ref) (σ : store) : store :=
  match screenshots with
  | [] => σ
  | first :: _ => update σ first (set_prev (Some first))
  end.

(** What is left of an object after a refused bulk save: a cached
    field the pass has not written stays, one it has written holds
    what the session leaves ([left]); nothing else changes. *)
Definition unsettle (before now : Screenshot)
    (left : option bytes * option bytes) : Screenshot :=
  mkScreenshot (recording_timestamp now) (timestamp now) (png_data now)
    (if decide (png_diff_data now = png_diff_data before)
     then png_diff_data now else left.1)
    (if decide (png_diff_mask_data now = png_diff_mask_data before)
     then png_diff_mask_data now else left.2)
    (prev now).

Section WithImaging.

(** [screenshot.convert_png_to_binary(screenshot.diff)] and the same
    for [diff_mask], as functions of the screenshot and of the object
    its [prev] points to; [None] stands for a failed computation.
    [openadapt.models] is not part of the sources at hand. *)
Variable diff_png : Screenshot → Screenshot → option bytes.
Variable diff_mask_png : Screenshot → Screenshot → option bytes.
(** Whether the storage accepts the bulk update, and, when it does
    not, what the session leaves in the two cached columns of an
    object: a refusal rolls the transaction back and expires the
    session's objects, so the diffs a pass has just cached are not
    to be relied on afterwards. *)
Variable bulk_save_ok : list Screenshot → bool.
Variable after_refusal : store → ref → option bytes * option bytes.
Variable SAVE_SCREENSHOT_DIFF : bool.

(** Lines 339-341, for a screenshot whose [prev] is [p]. *)
Definition cache_diff (screenshot p : ref) (data_updated : bool)
    : M state bool :=
  let* s := read screenshot in
  if truthy (png_diff_data s) then ret data_updated
  else
    let* before := read p in
    emit (ComputeDiff screenshot) ;;
    let* b := computed (diff_png s before) in
    assign screenshot (set_png_diff_data (Some b)) ;;
    ret true.

(** Lines 342-346, likewise. *)
Definition cache_diff_mask (screenshot p : ref) (data_updated : bool)
    : M state bool :=
  let* s := read screenshot in
  if truthy (png_diff_mask_data s) then ret data_updated
  else
    let* before := read p in
    emit (ComputeDiffMask screenshot) ;;
    let* b := computed (diff_mask_png s before) in
    assign screenshot (set_png_diff_mask_data (Some b)) ;;
    ret true.

(** The body of the loop of lines 336-346; the value threaded is
    [data_updated].  [not screenshot.prev] holds exactly when [prev]
    is [None]: an object is truthy. *)
Definition diff_body (screenshot : ref) (data_updated : bool)
    : M state bool :=
  let* s := read screenshot in
  match prev s with
  | None => ret data_updated
  | Some p =>
      let* updated := cache_diff screenshot p data_updated in
      cache_diff_mask screenshot p updated
  end.

Fixpoint diff_loop (screenshots : list ref) (data_updated : bool)
    : M state bool :=
  match screenshots with
  | [] => ret data_updated
  | screenshot :: rest =>
      let* updated := diff_body screenshot data_updated in
      diff_loop rest updated
  end.

(** A refused bulk save: every cached field that differs from what
    the object held when the pass began ([before]) is replaced by
    what the session leaves; the exception then goes to the caller. *)
Definition refused (before : store) : M state unit :=
  modify (λ st,
    (λ x, unsettle (before x) (st.1 x) (after_refusal st.1 x), st.2)) ;;
  raise CommitFailure.

(** Lines 348-351; [before] is the store as the pass found it. *)
Definition bulk_save (before : store) (screenshots : list ref)
    : M state unit :=
  emit (BulkSave screenshots) ;;
  let* objects := gets (λ st, st.1 <$> screenshots) in
  if bulk_save_ok objects then emit Commit else refused before.

Definition save_screenshot_diff (screenshots : list ref)
    : M state (list ref) :=
  let* before := gets fst in
  let* data_updated := diff_loop screenshots false in
  (if data_updated then bulk_save before screenshots else ret tt) ;;
  ret screenshots.

(** [get_screenshots(recording)] over the objects of the screenshot
    table. *)
Definition get_screenshots (table : list ref)
    (recording : option Query.Recording) : M state (list ref) :=
  match Query.recording_timestamp_attr recording with
  | Raise e => raise e
  | Ok ts =>
      let* σ := gets fst in
      let screenshots := Query._get (H := Screenshot_model σ) table ts in
      modify (λ st, (link screenshots st.1, st.2)) ;;
      modify (λ st, (link_first screenshots st.1, st.2)) ;;
      if SAVE_SCREENSHOT_DIFF then save_screenshot_diff screenshots
      else ret screenshots
  end.

End WithImaging.

(** How a pass over screenshots relates the store it starts from, the
    store it leaves and the effects [new] it adds: [prev] and the
    captured columns stay; a cached field changes only for a screenshot
    whose computation is among the effects; a computation is started
    only for a screenshot that has a [prev] and lacks the cached field;
    nothing but computations is added. *)
Record touched (new : list effect) (σ σ' : store) : Prop := mkTouched {
  touched_prev : ∀ r, prev (σ' r) = prev (σ r);
  touched_frame : ∀ r,
    recording_timestamp (σ' r) = recording_timestamp (σ r)
    ∧ timestamp (σ' r) = timestamp (σ r)
    ∧ png_data (σ' r) = png_data (σ r);
  touched_diff : ∀ r,
    png_diff_data (σ' r) ≠ png_diff_data (σ r) → ComputeDiff r ∈ new;
  touched_mask : ∀ r,
    png_diff_mask_data (σ' r) ≠ png_diff_mask_data (σ r) →
    ComputeDiffMask r ∈ new;
  touched_diff_absent : ∀ r,
    ComputeDiff r ∈ new →
    truthy (png_diff_data (σ r)) = false ∧ prev (σ r) ≠ None;
  touched_mask_absent : ∀ r,
    ComputeDiffMask r ∈ new →
    truthy (png_diff_mask_data (σ r)) = false ∧ prev (σ r) ≠ None;
  touched_only : Forall (λ e, is_computation e = true) new;
}.




(** Both cached fields of a screenshot are present. *)
Definition populated (s : Screenshot) : Prop :=
  truthy (png_diff_data s) = true ∧ truthy (png_diff_mask_data s) = true.

(** An encoder that never yields an empty byte string (a PNG file
    starts with an eight-byte signature). *)
Definition nonempty_output (f : Screenshot → Screenshot → option bytes) : Prop :=
  ∀ s p, f s p ≠ Some [].

(** A store of captures of recording [7] for examples: the capture
    behind reference [r] has timestamp [r]. *)
Definition blank (ts : Z) : Screenshot :=
  mkScreenshot 7 ts [Byte.x89; Byte.x50] None None None.
Definition store0 : store := λ r, blank (Z.of_nat r).
Definition recording7 : Query.Recording := Query.mkRecording 7 "demo".
Definition unstored : Query.Recording := Recordings.unstored.
Definition stored_actions := Recordings.stored_actions.
Definition stored_windows := Recordings.stored_windows.

Definition some_diff : Screenshot → Screenshot → option bytes :=
  λ _ _, Some [Byte.x01].
Definition accept_bulk : list Screenshot → bool := λ _, true.
Definition reject_bulk : list Screenshot → bool := λ _, false.
Definition expired : store → ref → option bytes * option bytes :=
  λ _ _, (None, None).

(** [get_screenshots] with diffs enabled on a table of three
    captures. *)
Definition fetched : outcome (list ref) * state :=
  get_screenshots some_diff some_diff accept_bulk expired true [2; 0; 1]
    (Some recording7) (store0, []).

End DiffChain.

(* ===================================================================== *)
(** * Properties *)
(* ===================================================================== *)

(** ** Python list primitives *)

Section PyLists.
Context {A : Type}.
Implicit Types l : list A.

Lemma pop_snoc l x : pop (l ++ [x]) = Some l.
Proof.
  unfold pop. destruct (l ++ [x]) eqn:E.
  - destruct l; discriminate.
  - rewrite <- E. f_equal. rewrite length_app. simpl.
    replace (length l + 1 - 1) with (length l) by lia.
    by rewrite take_app_length.
Qed.

Lemma pop_is_take l l' : pop l = Some l' → l' = take (length l - 1) l.
Proof. destruct l; simpl; [done | congruence]. Qed.

Lemma getitem_from_end l (k : nat) :
  0 < k ≤ length l →
  getitem l (- Z.of_nat k) = l !! (length l - k).
Proof.
  intros Hk. unfold getitem.
  destruct (Z.leb_spec 0 (- Z.of_nat k)); [lia |].
  destruct (Z.leb_spec (- Z.of_nat (length l)) (- Z.of_nat k)); [| lia].
  f_equal. lia.
Qed.

Lemma getitem_last l x : getitem (l ++ [x]) (-1) = Some x.
Proof.
  change (-1)%Z with (- Z.of_nat 1)%Z.
  rewrite getitem_from_end by (rewrite length_app; simpl; lia).
  rewrite length_app. simpl.
  replace (length l + 1 - 1) with (length l) by lia.
  by rewrite list_lookup_middle.
Qed.

Lemma getitem_before_last l x y : getitem (l ++ [x; y]) (-2) = Some x.
Proof.
  change (-2)%Z with (- Z.of_nat 2)%Z.
  rewrite getitem_from_end by (rewrite length_app; simpl; lia).
  rewrite length_app. simpl.
  replace (length l + 2 - 2) with (length l) by lia.
  by rewrite list_lookup_middle.
Qed.

End PyLists.

(** ** Stop-sequence trimmer *)

Module TrimmerFacts.
Import Trimmer.

(** A run of pops that does not raise leaves a prefix of the list. *)
Lemma pop_times_prefix n (l l' : list ActionEvent) :
  pop_times n l = (Ok tt, l') → l' = take (length l - n) l.
Proof.
  revert l. induction n as [| n IH]; intros l H; simpl in H.
  - inversion H. by rewrite Nat.sub_0_r, firstn_all.
  - destruct (pop l) as [l1 |] eqn:E; [| discriminate].
    apply IH in H. apply pop_is_take in E. subst l1.
    rewrite H, take_take, length_take. f_equal. lia.
Qed.

(** Whenever the trimmer returns, what it leaves is a prefix of what it
    was given. *)
Lemma filter_stop_sequences_prefix seqs (evs evs' : list ActionEvent) :
  filter_stop_sequences seqs evs = (Ok tt, evs') → evs' `prefix_of` evs.
Proof.
  unfold filter_stop_sequences. intros H.
  assert (∀ n, pop_times n evs = (Ok tt, evs') → evs' `prefix_of` evs) as P.
  { intros n Hn. apply pop_times_prefix in Hn. subst. apply prefix_take. }
  destruct (ends_with_ctrl_c evs); [by eapply P |].
  destruct (try_sequences _ _ _ _) as [[s n] | e]; [| discriminate].
  destruct (s =? -1)%Z; [| by eapply P].
  by inversion H.
Qed.

Lemma ends_with_ctrl_c_snoc front before last :
  canonical_key_char last = Some "c" →
  canonical_key_name before = Some "ctrl" →
  ends_with_ctrl_c (front ++ [before; last]) = true.
Proof.
  intros Hc Hn. unfold ends_with_ctrl_c.
  replace (front ++ [before; last]) with ((front ++ [before]) ++ [last])
    by (by rewrite <- app_assoc).
  rewrite getitem_last.
  replace ((front ++ [before]) ++ [last]) with (front ++ [before; last])
    by (by rewrite <- app_assoc).
  rewrite getitem_before_last. unfold attr_eq.
  rewrite Hc, Hn, length_app. simpl.
  rewrite bool_decide_eq_true_2 by lia. done.
Qed.

(** The configured-match example of the specification: with the
    sequence [shift esc] configured, the trailing press of "shift", its
    release and the press of "esc" are removed. *)
Example configured_match :
  filter_stop_sequences [["shift"; "esc"]]
    [press_char "a"; press_key "shift"; release_key "shift"; press_key "esc"]
  = (Ok tt, [press_char "a"]).
Proof. vm_compute. reflexivity. Qed.

(** A scan counts at most one event per event it visits. *)
Lemma scan_count_bound sequence events_rev idx num idx' num' :
  scan sequence events_rev idx num = Ok (idx', num') →
  num ≤ num' ≤ num + length events_rev.
Proof.
  revert idx num. induction events_rev as [| e rest IH]; intros idx num H.
  - simpl in H. inversion H. simpl. lia.
  - cbn [scan] in H. destruct (getitem sequence idx); [| discriminate].
    repeat case_match; try (apply IH in H; simpl; lia).
    inversion H. simpl. lia.
Qed.

Lemma pop_times_within n (l : list ActionEvent) :
  n ≤ length l → pop_times n l = (Ok tt, take (length l - n) l).
Proof.
  revert l. induction n as [| n IH]; intros l Hn; simpl.
  - by rewrite Nat.sub_0_r, firstn_all.
  - destruct l as [| x l] using rev_ind; [simpl in Hn; lia |].
    rewrite pop_snoc. rewrite length_app in *. simpl in *.
    rewrite IH by lia.
    replace (length l + 1 - S n) with (length l - n) by lia.
    by rewrite take_app_le by lia.
Qed.

(** When the first configured sequence is the one that matches, no
    earlier attempt has counted anything and exactly the events its
    scan consumed are removed. *)
Lemma first_sequence_removes_what_it_consumed sequence rest evs n :
  ends_with_ctrl_c evs = false →
  consumed_by sequence evs = Ok ((-1)%Z, n) →
  filter_stop_sequences (sequence :: rest) evs
  = (Ok tt, take (length evs - n) evs).
Proof.
  intros Hc Hs. unfold filter_stop_sequences, consumed_by in *.
  rewrite Hc. cbn [try_sequences]. rewrite Hs. simpl.
  apply pop_times_within. apply scan_count_bound in Hs.
  rewrite length_rev in Hs. lia.
Qed.

(** C3 (as amended): for every list ending in an event whose stored
    canonical character is exactly "c", preceded by an event whose
    canonical key name is "ctrl", [filter_stop_sequences] returns with
    exactly those two events removed, whatever the configured
    sequences are: the configured-sequence path is not entered. *)
Theorem ctrl_c_removes_last_two seqs (front : list ActionEvent) before last :
  canonical_key_char last = Some "c" →
  canonical_key_name before = Some "ctrl" →
  filter_stop_sequences seqs (front ++ [before; last]) = (Ok tt, front).
Proof.
  intros Hc Hn. unfold filter_stop_sequences.
  rewrite ends_with_ctrl_c_snoc by done. simpl.
  replace (front ++ [before; last]) with ((front ++ [before]) ++ [last])
    by (by rewrite <- app_assoc).
  by rewrite !pop_snoc.
Qed.

Lemma ctrl_c_removes_last_two_witness :
  filter_stop_sequences [["shift"; "esc"]]
    ([press_char "x"] ++ [press_key "ctrl"; press_char "c"])
  = (Ok tt, [press_char "x"]).
Proof. apply ctrl_c_removes_last_two; reflexivity. Defined.

(** C3 (as stated) fails: an event list ending in "ctrl" followed by an
    event whose stored character is the upper-case "C" is returned
    untouched. *)
Lemma ctrl_c_uppercase_is_kept :
  canonical_key_char (press_char "C") = Some "C"
  ∧ canonical_key_name (press_key "ctrl") = Some "ctrl"
  ∧ filter_stop_sequences [["shift"; "esc"]]
      ([press_char "x"] ++ [press_key "ctrl"; press_char "C"])
    = (Ok tt, [press_char "x"; press_key "ctrl"; press_char "C"]).
Proof. repeat split; vm_compute; reflexivity. Qed.

(** C1: with sequences [b a] and [a] configured and events
    [z q a], the scan for [b a] consumes the press of "a" and fails,
    the scan for [a] then matches having consumed that same single
    event, and two events are removed: the press of "q" goes although
    no scan consumed it. *)
Theorem failed_attempt_is_counted :
  consumed_by ["b"; "a"] [press_char "z"; press_char "q"; press_char "a"]
    = Ok (0%Z, 1)
  ∧ consumed_by ["a"] [press_char "z"; press_char "q"; press_char "a"]
    = Ok ((-1)%Z, 1)
  ∧ filter_stop_sequences [["b"; "a"]; ["a"]]
      [press_char "z"; press_char "q"; press_char "a"]
    = (Ok tt, [press_char "z"]).
Proof. repeat split; vm_compute; reflexivity. Qed.

(** C4: the trimmer can raise.  With sequences [b a] and [a] and the
    single event [a], the count carried over from the failed first scan
    makes the pop loop run twice on a one-element list; with the
    sequence [ctrl ctrl ctrl] and seven presses of "ctrl", the scan goes
    on after the cursor has reached -1 and indexes the sequence out of
    range. *)
Theorem filter_stop_sequences_can_raise :
  filter_stop_sequences [["b"; "a"]; ["a"]] [press_char "a"]
    = (Raise (IndexError "pop from empty list"), [])
  ∧ (filter_stop_sequences [["ctrl"; "ctrl"; "ctrl"]]
       (replicate 7 (press_key "ctrl"))).1
    = Raise (IndexError "list index out of range").
Proof. split; vm_compute; reflexivity. Qed.

End TrimmerFacts.

(** ** Stop-sequence trimmer: further properties *)

Module TrimmerExtras.
Import Trimmer TrimmerFacts.
Implicit Types (e : ActionEvent) (evs front keys : list ActionEvent)
  (sequence : list string) (seqs : list (list string)).

Lemma pop_times_raise n evs ex evs' :
  pop_times n evs = (Raise ex, evs') →
  ex = IndexError "pop from empty list" ∧ evs' = [].
Proof.
  revert evs. induction n as [| n IH]; intros evs H; simpl in H.
  - discriminate.
  - destruct evs as [| x evs]; simpl in H.
    + by inversion H.
    + by apply IH in H.
Qed.

Lemma scan_raise sequence events_rev idx num ex :
  scan sequence events_rev idx num = Raise ex →
  ex = IndexError "list index out of range".
Proof.
  revert idx num. induction events_rev as [| e rest IH]; intros idx num H.
  - discriminate.
  - cbn [scan] in H. destruct (getitem sequence idx); [| by inversion H].
    repeat case_match; try discriminate; by eapply IH.
Qed.

Lemma try_sequences_raise seqs i events_rev num ex :
  try_sequences seqs i events_rev num = Raise ex →
  ex = IndexError "list index out of range".
Proof.
  revert i num. induction seqs as [| sequence seqs IH]; intros i num H.
  - discriminate.
  - cbn [try_sequences] in H.
    destruct (scan sequence events_rev _ num) as [[idx num'] | ex'] eqn:E.
    + destruct (idx =? -1)%Z; [discriminate | by eapply IH].
    + inversion H; subst. by eapply scan_raise.
Qed.

Lemma filter_raise_cases seqs evs ex evs' :
  filter_stop_sequences seqs evs = (Raise ex, evs') →
  (ex = IndexError "list index out of range" ∧ evs' = evs)
  ∨ (ex = IndexError "pop from empty list" ∧ evs' = []).
Proof.
  unfold filter_stop_sequences. intros H.
  destruct (ends_with_ctrl_c evs).
  - right. by eapply pop_times_raise.
  - destruct (try_sequences seqs 0 (rev evs) 0) as [[s n] | ex0] eqn:E.
    + destruct (s =? -1)%Z; [discriminate |].
      right. by eapply pop_times_raise.
    + inversion H; subst. left. split; [| done].
      by eapply try_sequences_raise.
Qed.

Lemma try_sequences_nil seqs i :
  ∃ s, try_sequences seqs i [] 0 = Ok (s, 0).
Proof.
  revert i. induction seqs as [| sequence seqs IH]; intros i; simpl.
  - eauto.
  - destruct (_ =? -1)%Z; eauto.
Qed.

Lemma filter_stop_sequences_nil seqs :
  filter_stop_sequences seqs [] = (Ok tt, []).
Proof.
  unfold filter_stop_sequences.
  change (ends_with_ctrl_c []) with false. cbn [rev].
  destruct (try_sequences_nil seqs 0) as [s ->].
  by destruct (s =? -1)%Z.
Qed.

Lemma getitem_cursor_start sequence :
  sequence ≠ [] →
  getitem sequence (Z.of_nat (length sequence) - 1) = last sequence.
Proof.
  intros Hne. unfold getitem.
  destruct sequence as [| t sequence]; [done |]. clear Hne.
  destruct (Z.leb_spec 0 (Z.of_nat (length (t :: sequence)) - 1));
    [| simpl in *; lia].
  rewrite last_lookup. f_equal. simpl. lia.
Qed.

(** The scan stops at once, with cursor and count as they are, at an
    event that is neither a press nor a release. *)
Lemma scan_stops_at_other sequence e rest idx num :
  is_Some (getitem sequence idx) → not_a_key_event e →
  scan sequence (e :: rest) idx num = Ok (idx, num).
Proof.
  intros [token Ht] [Hp Hr]. cbn [scan]. rewrite Ht.
  rewrite (bool_decide_eq_false_2 (name e = "press")) by done.
  rewrite (bool_decide_eq_false_2 (name e = "release")) by done.
  by rewrite andb_false_r.
Qed.

Lemma try_sequences_other seqs i e rest num :
  [] ∉ seqs → not_a_key_event e →
  try_sequences seqs i (e :: rest) num = Ok ((-1)%Z, num).
Proof.
  revert i. induction seqs as [| sequence seqs IH]; intros i Hne He; [done |].
  apply not_elem_of_cons in Hne as [Hs Hne].
  cbn [try_sequences]. rewrite scan_stops_at_other; [| | done].
  - destruct (Z.eqb_spec (Z.of_nat (length sequence) - 1) (-1)) as [E |].
    + destruct sequence; [done | simpl in E; lia].
    + by apply IH.
  - rewrite getitem_cursor_start by done. by apply last_is_Some.
Qed.

(** Pressing the tokens of a sequence in order moves the cursor of its
    scan from the last token to -1 and counts each press. *)
Lemma scan_presses toks : ∀ keys suffix tail num,
  Forall2 presses keys toks →
  scan (toks ++ suffix) (rev keys ++ tail)
       (Z.of_nat (length toks) - 1) num
  = scan (toks ++ suffix) tail (-1) (num + length keys).
Proof.
  induction toks as [| t toks IH] using rev_ind;
    intros keys suffix tail num HF.
  - apply Forall2_nil_inv_r in HF as ->. simpl. by rewrite Nat.add_0_r.
  - apply Forall2_app_inv_r in HF as (keys0 & k1 & HF0 & HF1 & ->).
    apply Forall2_cons_inv_r in HF1 as (k & k2 & Hk & HF2 & ->).
    apply Forall2_nil_inv_r in HF2 as ->.
    rewrite rev_app_distr. cbn [rev app scan].
    assert (getitem ((toks ++ [t]) ++ suffix)
              (Z.of_nat (length (toks ++ [t])) - 1) = Some t) as ->.
    { unfold getitem. rewrite length_app. simpl.
      destruct (Z.leb_spec 0 (Z.of_nat (length toks + 1) - 1)); [| lia].
      replace (Z.to_nat (Z.of_nat (length toks + 1) - 1))
        with (length toks) by lia.
      rewrite <- app_assoc. simpl. by rewrite list_lookup_middle. }
    destruct Hk as [Hp Hm].
    assert (attr_eq (canonical_key_char k) t
            || attr_eq (canonical_key_name k) t = true) as ->.
    { unfold attr_eq. destruct Hm as [-> | ->].
      - by rewrite bool_decide_eq_true_2.
      - rewrite (bool_decide_eq_true_2 (Some t = Some t)) by done.
        by rewrite orb_true_r. }
    rewrite bool_decide_eq_true_2 by done. cbn [andb].
    rewrite length_app. simpl.
    replace (Z.of_nat (length toks + 1) - 1 - 1)%Z
      with (Z.of_nat (length toks) - 1)%Z by lia.
    rewrite <- (app_assoc toks [t] suffix).
    rewrite (IH keys0 ([t] ++ suffix) tail (S num) HF0).
    rewrite length_app. simpl. f_equal. lia.
Qed.

(** X1: the trimmer never adds or reorders: whenever it returns, what
    it leaves is a prefix of what it was given. *)
Theorem trimmed_is_prefix seqs evs evs' :
  filter_stop_sequences seqs evs = (Ok tt, evs') → evs' `prefix_of` evs.
Proof. apply filter_stop_sequences_prefix. Qed.

Lemma trimmed_is_prefix_witness :
  [press_char "a"]
  `prefix_of` [press_char "a"; press_key "shift"; release_key "shift";
               press_key "esc"].
Proof.
  apply (trimmed_is_prefix [["shift"; "esc"]]). vm_compute. reflexivity.
Defined.

(** X2: on an empty event list the trimmer returns the empty list
    without error, whatever is configured (empty sequences
    included). *)
Theorem empty_list_is_returned seqs :
  filter_stop_sequences seqs [] = (Ok tt, []).
Proof. apply filter_stop_sequences_nil. Qed.

(** X3: when the last event is neither a key press nor a key release
    and the Ctrl+C tail is absent, nothing is trimmed, for every
    configuration without an empty sequence. *)
Theorem other_tail_is_kept seqs front e :
  [] ∉ seqs → not_a_key_event e →
  ends_with_ctrl_c (front ++ [e]) = false →
  filter_stop_sequences seqs (front ++ [e]) = (Ok tt, front ++ [e]).
Proof.
  intros Hne He Hc. unfold filter_stop_sequences. rewrite Hc.
  rewrite rev_app_distr. simpl.
  by rewrite try_sequences_other.
Qed.

Lemma other_tail_is_kept_witness :
  filter_stop_sequences [["shift"; "esc"]; ["q"]]
    ([press_key "shift"; press_key "esc"] ++ [click])
  = (Ok tt, [press_key "shift"; press_key "esc"] ++ [click]).
Proof.
  apply other_tail_is_kept.
  - intros H. repeat (apply elem_of_cons in H as [[=] | H]).
    by apply elem_of_nil in H.
  - split; discriminate.
  - reflexivity.
Defined.

(** X4: an empty sequence at the head of the configuration makes the
    trimmer raise [IndexError] on every non-empty event list without
    the Ctrl+C tail, and the list is left as it was. *)
Theorem empty_sequence_raises seqs evs :
  evs ≠ [] → ends_with_ctrl_c evs = false →
  filter_stop_sequences ([] :: seqs) evs
  = (Raise (IndexError "list index out of range"), evs).
Proof.
  intros Hne Hc. unfold filter_stop_sequences. rewrite Hc.
  destruct evs as [| x evs] using rev_ind; [done |].
  rewrite rev_app_distr. reflexivity.
Qed.

Lemma empty_sequence_raises_witness :
  filter_stop_sequences [[]; ["q"]] [press_char "a"]
  = (Raise (IndexError "list index out of range"), [press_char "a"]).
Proof. apply empty_sequence_raises; [discriminate | reflexivity]. Defined.

(** X5: when the scan of the first configured sequence ends with its
    cursor at -1, exactly the events that scan counted are removed
    from the end. *)
Theorem first_sequence_removes_its_count sequence seqs evs n :
  ends_with_ctrl_c evs = false →
  consumed_by sequence evs = Ok ((-1)%Z, n) →
  filter_stop_sequences (sequence :: seqs) evs
  = (Ok tt, take (length evs - n) evs).
Proof. apply first_sequence_removes_what_it_consumed. Qed.

Lemma first_sequence_removes_its_count_witness :
  filter_stop_sequences [["shift"; "esc"]; ["q"]]
    [press_char "a"; press_key "shift"; release_key "shift"; press_key "esc"]
  = (Ok tt, take (4 - 3)
              [press_char "a"; press_key "shift"; release_key "shift";
               press_key "esc"]).
Proof.
  apply (first_sequence_removes_its_count ["shift"; "esc"] [["q"]]
           [press_char "a"; press_key "shift"; release_key "shift";
            press_key "esc"] 3); reflexivity.
Defined.

(** X6: a stop phrase pressed key by key at the end of the recording is
    stripped whole: if the events end with one press per token of the
    first configured sequence, in order, preceded by nothing or by an
    event that is neither a press nor a release, and the Ctrl+C tail
    is absent, exactly those presses are removed. *)
Theorem pressed_sequence_is_stripped sequence seqs front keys :
  sequence ≠ [] →
  Forall2 presses keys sequence →
  (∀ e, last front = Some e → not_a_key_event e) →
  ends_with_ctrl_c (front ++ keys) = false →
  filter_stop_sequences (sequence :: seqs) (front ++ keys) = (Ok tt, front).
Proof.
  intros Hne HF Hfront Hc. unfold filter_stop_sequences. rewrite Hc.
  rewrite rev_app_distr. cbn [try_sequences].
  pose proof (scan_presses sequence keys [] (rev front) 0 HF) as Hs.
  rewrite app_nil_r in Hs. rewrite Hs. clear Hs. simpl.
  assert (scan sequence (rev front) (-1) (length keys)
          = Ok ((-1)%Z, length keys)) as ->.
  { destruct front as [| e front _] using rev_ind; [done |].
    rewrite rev_app_distr. simpl rev. simpl app.
    apply scan_stops_at_other.
    - change (-1)%Z with (- Z.of_nat 1)%Z.
      rewrite getitem_from_end.
      + apply lookup_lt_is_Some. destruct sequence; [done | simpl; lia].
      + destruct sequence; [done | simpl; lia].
    - apply Hfront. by rewrite last_snoc. }
  simpl. rewrite pop_times_within by (rewrite length_app; lia).
  rewrite length_app.
  replace (length front + length keys - length keys) with (length front)
    by lia.
  by rewrite take_app_length.
Qed.

Lemma pressed_sequence_is_stripped_witness :
  filter_stop_sequences [["o"; "a"; "."]; ["q"]]
    ([press_char "x"; click]
     ++ [press_char "o"; press_char "a"; press_char "."])
  = (Ok tt, [press_char "x"; click]).
Proof.
  apply pressed_sequence_is_stripped.
  - discriminate.
  - repeat constructor.
  - intros e [= <-]. split; discriminate.
  - reflexivity.
Defined.

(** X7: when the trimmer raises, either the scan indexed a sequence
    out of range and the list is as it was, or the pop loop ran dry
    and the list has been emptied. *)
Theorem raise_leaves_all_or_nothing seqs evs ex evs' :
  filter_stop_sequences seqs evs = (Raise ex, evs') →
  (ex = IndexError "list index out of range" ∧ evs' = evs)
  ∨ (ex = IndexError "pop from empty list" ∧ evs' = []).
Proof. apply filter_raise_cases. Qed.

Lemma raise_leaves_all_or_nothing_witness :
  (IndexError "pop from empty list" = IndexError "list index out of range"
   ∧ [] = [press_char "a"])
  ∨ (IndexError "pop from empty list" = IndexError "pop from empty list"
     ∧ [] = @nil ActionEvent).
Proof.
  apply (raise_leaves_all_or_nothing [["b"; "a"]; ["a"]] [press_char "a"]).
  vm_compute. reflexivity.
Defined.

End TrimmerExtras.

(** ** Batched writer *)

Module WriterFacts.
Import Writer.

(** Case analysis on the membership tests of a goal. *)
Local Ltac by_membership :=
  repeat match goal with
         | |- context [decide ?P] => destruct (decide P)
         end;
  simplify_eq; try done;
  repeat match goal with
         | H : _ ∈ [] |- _ => by apply elem_of_nil in H
         | H : _ ∈ _ :: _ |- _ => apply elem_of_cons in H as [? | ?]
         | H : _ ∉ _ :: _ |- _ => apply not_elem_of_cons in H as [? ?]
         end;
  simplify_eq; done.

Lemma empty_obj_lookup cols key :
  empty_obj cols !! key = if decide (key ∈ cols) then Some VNone else None.
Proof.
  induction cols as [| c cols IH].
  - unfold empty_obj. cbn [foldr]. rewrite lookup_empty. by_membership.
  - unfold empty_obj. cbn [foldr]. fold (empty_obj cols).
    destruct (decide (c = key)) as [-> | Hne].
    + rewrite lookup_insert_eq. by_membership.
    + rewrite lookup_insert_ne by done. rewrite IH. by_membership.
Qed.

Lemma move_key_hit (obj event_data : Row) key val :
  event_data !! key = Some val →
  move_key (obj, event_data) key = (<[key := val]> obj, delete key event_data).
Proof. intros H. unfold move_key. cbn [fst snd]. by rewrite H. Qed.

Lemma move_key_miss (obj event_data : Row) key :
  event_data !! key = None →
  move_key (obj, event_data) key = (obj, event_data).
Proof. intros H. unfold move_key. cbn [fst snd]. by rewrite H. Qed.

(** What the loop of lines 50-54 leaves in [event_data]: the entries
    whose key is not a column. *)
Lemma moved_rest cols (obj event_data : Row) key :
  (foldl move_key (obj, event_data) cols).2 !! key
  = if decide (key ∈ cols) then None else event_data !! key.
Proof.
  revert obj event_data.
  induction cols as [| c cols IH]; intros obj event_data; cbn [foldl snd].
  - by_membership.
  - destruct (event_data !! c) as [val |] eqn:E.
    + rewrite (move_key_hit _ _ _ _ E), IH.
      destruct (decide (key = c)) as [-> | Hne].
      * rewrite lookup_delete_eq. by_membership.
      * rewrite lookup_delete_ne by done. by_membership.
    + rewrite (move_key_miss _ _ _ E), IH. by_membership.
Qed.

(** What the loop puts into [db_obj]: the supplied value of every
    column that was supplied. *)
Lemma moved_obj cols (obj event_data : Row) key :
  (foldl move_key (obj, event_data) cols).1 !! key
  = if decide (key ∈ cols)
    then match event_data !! key with
         | Some val => Some val
         | None => obj !! key
         end
    else obj !! key.
Proof.
  revert obj event_data.
  induction cols as [| c cols IH]; intros obj event_data; cbn [foldl fst].
  - by_membership.
  - destruct (event_data !! c) as [val |] eqn:E.
    + rewrite (move_key_hit _ _ _ _ E), IH.
      destruct (decide (key = c)) as [-> | Hne].
      * rewrite lookup_delete_eq, lookup_insert_eq, E. by_membership.
      * rewrite lookup_delete_ne, lookup_insert_ne by done. by_membership.
    + rewrite (move_key_miss _ _ _ E), IH.
      destruct (decide (key = c)) as [-> | Hne].
      * rewrite E. by_membership.
      * by_membership.
Qed.

(** The row has exactly the table's columns: a supplied value where the
    record has one, [None] elsewhere. *)
Lemma row_of_lookup table event_data key :
  row_of table event_data !! key
  = if decide (key ∈ columns table)
    then Some (default VNone (event_data !! key))
    else None.
Proof.
  unfold row_of, fill. rewrite moved_obj, empty_obj_lookup.
  destruct (decide (key ∈ columns table)); [| done].
  by destruct (event_data !! key).
Qed.

(** The assertion of line 57 passes exactly when every supplied field
    is a column. *)
Lemma leftover_empty table event_data :
  (fill table event_data).2 = ∅ ↔ ¬ undeclared_field event_data table.
Proof.
  unfold fill, undeclared_field. split.
  - intros H [key [[val Hval] Hnot]].
    pose proof (moved_rest (columns table) (empty_obj (columns table))
                  event_data key) as L.
    rewrite H, lookup_empty, decide_False in L by done. congruence.
  - intros H. apply map_eq. intros key.
    rewrite moved_rest, lookup_empty.
    destruct (decide (key ∈ columns table)); [done |].
    destruct (event_data !! key) as [val |] eqn:E; [| done].
    exfalso. apply H. exists key. eauto.
Qed.

Lemma leftover_nonempty table event_data :
  (fill table event_data).2 ≠ ∅ → undeclared_field event_data table.
Proof.
  intros H. apply map_choose in H as [key [val Hkey]].
  unfold fill in Hkey. rewrite moved_rest in Hkey.
  destruct (decide (key ∈ columns table)); [done |].
  exists key. eauto.
Qed.

(** What the [insert_*] wrappers hand to [_insert] always carries both
    timestamps. *)
Lemma inject_timestamps_present rt et (event_data : Row) :
  ¬ omits_timestamps (inject_timestamps rt et event_data).
Proof.
  unfold omits_timestamps, inject_timestamps. intros [H | H].
  - rewrite lookup_insert_ne, lookup_insert_eq in H; done.
  - rewrite lookup_insert_eq in H; done.
Qed.

Section WithStorage.
Variable BATCH_SIZE : Z.
Variable execute_ok : Session → Table → list Row → bool.
Variable commit_ok : Session → bool.

Local Abbreviation insert := (_insert BATCH_SIZE execute_ok commit_ok).
Local Abbreviation insert_all := (insert_each BATCH_SIZE execute_ok commit_ok).

Lemma insert_rejects event_data table buffer db :
  undeclared_field event_data table →
  insert event_data table buffer db
  = (Raise (AssertionError "event_data"), buffer, db).
Proof.
  intros H. unfold _insert.
  destruct (fill table event_data) as [obj rest] eqn:E.
  rewrite bool_decide_eq_false_2; [done |].
  intros ->. eapply leftover_empty; [| exact H]. by rewrite E.
Qed.

(** Below the threshold a valid record is appended and nothing else
    happens. *)
Lemma insert_buffers event_data table b db :
  ¬ undeclared_field event_data table →
  (Z.of_nat (length b) + 1 < BATCH_SIZE)%Z →
  insert event_data table (Some b) db
  = (Ok None, Some (b ++ [row_of table event_data]), db).
Proof.
  intros Hv Hlt. unfold _insert, row_of.
  apply leftover_empty in Hv.
  destruct (fill table event_data) as [obj rest] eqn:E. simpl in *.
  rewrite bool_decide_eq_true_2 by done. simpl.
  rewrite bool_decide_eq_false_2; [done |].
  rewrite length_app. simpl. lia.
Qed.

(** At the threshold, with a storage that accepts the statement and
    the commit, the whole buffer goes out as one insert and the
    buffer is cleared. *)
Lemma insert_flushes event_data table b db :
  ¬ undeclared_field event_data table →
  (BATCH_SIZE ≤ Z.of_nat (length b) + 1)%Z →
  let rows := b ++ [row_of table event_data] in
  let db1 := mkSession (pending db ++ [(table_name table, rows)])
                       (committed db) in
  execute_ok db table rows = true →
  commit_ok db1 = true →
  insert event_data table (Some b) db
  = (Ok (Some (mkResult (table_name table) (length rows))), Some [],
     mkSession [] (committed db ++ pending db
                   ++ [(table_name table, rows)])).
Proof.
  intros Hv Hge rows db1 He Hc. unfold _insert.
  apply leftover_empty in Hv. subst rows db1. unfold row_of in *.
  destruct (fill table event_data) as [obj rest] eqn:E. simpl in *.
  rewrite bool_decide_eq_true_2 by done. simpl.
  rewrite bool_decide_eq_true_2 by (rewrite length_app; simpl; lia).
  destruct (b ++ [obj]) as [| r rs] eqn:Eb.
  { destruct b; discriminate. }
  unfold db_execute. rewrite He. unfold db_commit. simpl.
  rewrite Hc. simpl. done.
Qed.

(** A commit that is attempted and refused leaves every row in the
    buffer and raises. *)
Lemma insert_commit_fails event_data table b db :
  ¬ undeclared_field event_data table →
  (BATCH_SIZE ≤ Z.of_nat (length b) + 1)%Z →
  let rows := b ++ [row_of table event_data] in
  let db1 := mkSession (pending db ++ [(table_name table, rows)])
                       (committed db) in
  execute_ok db table rows && commit_ok db1 = false →
  ∃ db', insert event_data table (Some b) db
         = (Raise CommitFailure, Some rows, db')
         ∧ committed db' = committed db.
Proof.
  intros Hv Hge rows db1 Hf. unfold _insert.
  apply leftover_empty in Hv. subst rows db1. unfold row_of in *.
  destruct (fill table event_data) as [obj rest] eqn:E. simpl in *.
  rewrite bool_decide_eq_true_2 by done. simpl.
  rewrite bool_decide_eq_true_2 by (rewrite length_app; simpl; lia).
  destruct (b ++ [obj]) as [| r rs] eqn:Eb.
  { destruct b; discriminate. }
  unfold db_execute.
  destruct (execute_ok db table (r :: rs)); simpl in *.
  - unfold db_commit. rewrite Hf. eauto.
  - eauto.
Qed.

Lemma insert_each_below records table b db :
  Forall (λ event_data, ¬ undeclared_field event_data table) records →
  (Z.of_nat (length b + length records) < BATCH_SIZE)%Z →
  insert_all records table b db
  = (Ok tt, b ++ (row_of table <$> records), db).
Proof.
  revert b. induction records as [| r records IH]; intros b Hv Hlt; simpl.
  - by rewrite app_nil_r.
  - inversion Hv as [| ? ? Hr Hrest]; subst. simpl in Hlt.
    rewrite insert_buffers by (done || lia). simpl.
    rewrite IH; [by rewrite <- app_assoc | done |].
    rewrite length_app. simpl. lia.
Qed.

Lemma insert_each_snoc records last table b db :
  insert_all (records ++ [last]) table b db
  = match insert_all records table b db with
    | (Raise e, b', db') => (Raise e, b', db')
    | (Ok _, b', db') => insert_all [last] table b' db'
    end.
Proof.
  revert b db. induction records as [| r records IH]; intros b db; simpl.
  - done.
  - destruct (insert r table (Some b) db) as [[[res | e] b'] db']; [| done].
    apply IH.
Qed.

End WithStorage.

End WriterFacts.

Module WriterClaims.
Import Writer WriterFacts.

Lemma sample1_valid : ¬ undeclared_field sample1 MemoryStat.
Proof. apply leftover_empty. vm_compute. reflexivity. Defined.

Lemma sample2_valid : ¬ undeclared_field sample2 MemoryStat.
Proof. apply leftover_empty. vm_compute. reflexivity. Defined.

Lemma untimed_valid : ¬ undeclared_field untimed MemoryStat.
Proof. apply leftover_empty. vm_compute. reflexivity. Defined.

(** C2: for every threshold [T ≥ 1], valid records offered one by one
    with a buffer that starts empty, and a storage that accepts its
    inserts: fewer than [T] calls leave the session untouched and the
    buffer holding one row per call, in order; exactly [T] calls leave
    the buffer empty and the session with one more committed insert,
    holding all [T] rows. *)
Theorem batch_threshold (T : Z) execute_ok commit_ok
    (records : list Row) table db :
  (1 ≤ T)%Z →
  Forall (λ event_data, ¬ undeclared_field event_data table) records →
  (∀ db' t rows, execute_ok db' t rows = true) →
  (∀ db', commit_ok db' = true) →
  ((Z.of_nat (length records) < T)%Z →
     insert_each T execute_ok commit_ok records table [] db
     = (Ok tt, row_of table <$> records, db))
  ∧ (Z.of_nat (length records) = T →
     insert_each T execute_ok commit_ok records table [] db
     = (Ok tt, [],
        mkSession [] (committed db ++ pending db
                      ++ [(table_name table, row_of table <$> records)]))).
Proof.
  intros HT Hv He Hc. split.
  - intros Hlt. by rewrite insert_each_below.
  - intros Hlen. destruct records as [| r0 rs] using rev_ind.
    { simpl in Hlen. lia. }
    clear IHrs. rewrite length_app in Hlen. simpl in Hlen.
    apply Forall_app in Hv as [Hrs Hr0]. inversion Hr0; subst.
    rewrite insert_each_snoc, insert_each_below by (done || simpl; lia).
    simpl. rewrite insert_flushes; try done.
    + rewrite fmap_app. done.
    + rewrite length_fmap. lia.
Qed.

Lemma batch_threshold_witness :
  insert_each 2 accept_execute accept_commit [sample1; sample2]
    MemoryStat [] empty_session
  = (Ok tt, [],
     mkSession [] [("memory_stat", row_of MemoryStat <$> [sample1; sample2])]).
Proof.
  apply (batch_threshold 2 accept_execute accept_commit [sample1; sample2]
           MemoryStat empty_session).
  - lia.
  - repeat constructor; [apply sample1_valid | apply sample2_valid].
  - reflexivity.
  - reflexivity.
  - reflexivity.
Defined.

(** C7 (as amended): [_insert] fails its assertion exactly when the
    record has a field that is not a column of the table, and then it
    leaves the buffer and the session as they were; whether the two
    timestamps are present plays no part. *)
Theorem schema_violation_iff_undeclared_field (T : Z) execute_ok commit_ok
    (event_data : Row) table buffer db :
  (undeclared_field event_data table
   ↔ ∃ msg, (_insert T execute_ok commit_ok event_data table buffer db).1.1
            = Raise (AssertionError msg))
  ∧ (undeclared_field event_data table →
     _insert T execute_ok commit_ok event_data table buffer db
     = (Raise (AssertionError "event_data"), buffer, db)).
Proof.
  split; [split |].
  - intros H. rewrite insert_rejects by done. eauto.
  - intros [msg H]. unfold _insert in H.
    destruct (fill table event_data) as [obj rest] eqn:E.
    destruct (bool_decide (rest = ∅)) eqn:Hrest.
    + exfalso. unfold db_execute, db_commit in H.
      repeat (case_match; simplify_eq; simpl in *); done.
    + apply bool_decide_eq_false_1 in Hrest.
      apply leftover_nonempty. by rewrite E.
  - apply insert_rejects.
Qed.

(** C7 (as stated) fails: a record without the two timestamps, all of
    whose fields are columns, is buffered and committed like any
    other. *)
Lemma untimed_record_is_accepted :
  omits_timestamps untimed
  ∧ (_insert 1 accept_execute accept_commit untimed MemoryStat (Some [])
       empty_session).1
    = (Ok (Some (mkResult "memory_stat" 1)), Some []).
Proof. split; [left |]; vm_compute; reflexivity. Qed.

(** C8: when a valid record brings the buffer to the threshold and the
    storage refuses the insert or the commit, the call raises the
    failure and the buffer holds every row it held, the new one
    included; nothing has been committed. *)
Theorem commit_failure_keeps_buffer (T : Z) execute_ok commit_ok
    (event_data : Row) table (b : list Row) db :
  ¬ undeclared_field event_data table →
  (T ≤ Z.of_nat (length b) + 1)%Z →
  execute_ok db table (b ++ [row_of table event_data])
  && commit_ok (mkSession
                  (pending db
                   ++ [(table_name table, b ++ [row_of table event_data])])
                  (committed db)) = false →
  ∃ db', _insert T execute_ok commit_ok event_data table (Some b) db
         = (Raise CommitFailure, Some (b ++ [row_of table event_data]), db')
         ∧ committed db' = committed db.
Proof. intros Hv Hge Hf. by apply insert_commit_fails. Qed.

Lemma commit_failure_keeps_buffer_witness :
  ∃ db', _insert 2 accept_execute reject_commit sample2 MemoryStat
           (Some [row_of MemoryStat sample1]) empty_session
         = (Raise CommitFailure,
            Some ([row_of MemoryStat sample1] ++ [row_of MemoryStat sample2]),
            db')
         ∧ committed db' = committed empty_session.
Proof.
  apply commit_failure_keeps_buffer.
  - apply sample2_valid.
  - simpl. lia.
  - reflexivity.
Defined.

End WriterClaims.

(** ** Batched writer: further properties *)

Module WriterExtras.
Import Writer WriterFacts.

(** A record all of whose keys are columns passes the assertion. *)
Lemma declared_keys_pass (event_data : Row) table :
  (∀ key, is_Some (event_data !! key) → key ∈ columns table) →
  ¬ undeclared_field event_data table.
Proof. intros H (key & Hs & Hn). by apply Hn, H. Qed.

Section WithStorage.
Variable BATCH_SIZE : Z.
Variable execute_ok : Session → Table → list Row → bool.
Variable commit_ok : Session → bool.

Local Abbreviation insert := (_insert BATCH_SIZE execute_ok commit_ok).
Local Abbreviation insert_into :=
  (insert_into BATCH_SIZE execute_ok commit_ok).

(** A record that passes the assertion is buffered, committed or
    refused by the storage: the assertion is the only source of an
    [AssertionError]. *)
Lemma insert_valid_outcome (event_data : Row) table buffer db :
  ¬ undeclared_field event_data table →
  (∃ r, (insert event_data table buffer db).1.1 = Ok r)
  ∨ (insert event_data table buffer db).1.1 = Raise CommitFailure.
Proof.
  intros Hv. apply leftover_empty in Hv. unfold _insert.
  destruct (fill table event_data) as [obj rest]. simpl in Hv. subst rest.
  rewrite bool_decide_eq_true_2 by done.
  unfold db_execute, db_commit.
  repeat (case_match; simplify_eq; simpl in *); eauto.
Qed.

Lemma insert_into_assertion (event_data : Row) table b db :
  (∃ msg, (insert_into table b event_data db).1.1
          = Raise (AssertionError msg))
  ↔ undeclared_field event_data table.
Proof.
  unfold Writer.insert_into. split.
  - intros [msg H].
    destruct (decide ((fill table event_data).2 = ∅)) as [E | E];
      [| by apply leftover_nonempty].
    apply leftover_empty in E.
    destruct (insert_valid_outcome event_data table (Some b) db E)
      as [[r Hr] | Hr];
      destruct (insert event_data table (Some b) db) as [[[r' | e] b'] db'];
      simpl in *; congruence.
  - intros H. rewrite insert_rejects by done. eauto.
Qed.

(** Where the row of a valid record ends up, in every case: a
    buffering call appends it to the buffer, a committing call sends
    it as the last row of the insert it commits, and a call the
    storage refuses leaves it at the end of the buffer. *)
Lemma insert_places_row (event_data : Row) table buffer db :
  ¬ undeclared_field event_data table →
  let row := row_of table event_data in
  let rows := default [] buffer ++ [row] in
  let run := insert event_data table buffer db in
  match run.1.1 with
  | Ok None =>
      (∃ b, buffer = Some b ∧ (Z.of_nat (length b) + 1 < BATCH_SIZE)%Z)
      ∧ run.1.2 = Some rows ∧ run.2 = db
  | Ok (Some result) =>
      (∀ b, buffer = Some b → (BATCH_SIZE ≤ Z.of_nat (length b) + 1)%Z)
      ∧ run.1.2 = (λ _, []) <$> buffer
      ∧ committed run.2
        = committed db ++ pending db ++ [(table_name table, rows)]
  | Raise e =>
      e = CommitFailure
      ∧ run.1.2 = (λ b, b ++ [row]) <$> buffer
      ∧ committed run.2 = committed db
  end.
Proof.
  intros Hv row rows run. subst row rows run. unfold _insert, row_of.
  apply leftover_empty in Hv.
  destruct (fill table event_data) as [obj rest]. simpl in Hv.
  subst rest. rewrite bool_decide_eq_true_2 by done.
  cbn [fst snd]. destruct buffer as [b |]; simpl.
  - destruct (bool_decide_reflect
                (BATCH_SIZE ≤ Z.of_nat (length (b ++ [obj])))%Z)
      as [Hge | Hlt];
      rewrite length_app, Nat2Z.inj_add in *; cbn [length] in *.
    + destruct (b ++ [obj]) as [| r rs] eqn:Eb.
      { destruct b; discriminate. }
      unfold db_execute.
      destruct (execute_ok db table (r :: rs)); cbn [fst snd]; [| done].
      unfold db_commit.
      destruct (commit_ok _); cbn [fst snd pending committed]; [| done].
      split_and!; [| done | by rewrite <- Eb].
      intros ? [= <-]. simpl in Hge. lia.
    + cbn [fst snd]. split_and!; [| done | done].
      exists b. split; [done |]. simpl in Hlt. lia.
  - unfold db_execute.
    destruct (execute_ok db table [obj]); cbn [fst snd]; [| done].
    unfold db_commit.
    destruct (commit_ok _); cbn [fst snd pending committed]; [| done].
    split_and!; done.
Qed.

(** A valid record carries its two timestamps into its row. *)
Lemma stamped_row table rt et (event_data : Row) :
  ¬ undeclared_field (inject_timestamps rt et event_data) table →
  row_of table (inject_timestamps rt et event_data)
    !! "recording_timestamp" = Some (VInt rt)
  ∧ row_of table (inject_timestamps rt et event_data)
      !! "timestamp" = Some (VInt et).
Proof.
  intros Hv.
  assert (∀ key, is_Some (inject_timestamps rt et event_data !! key) →
                 key ∈ columns table) as Hcol.
  { intros key Hs. destruct (decide (key ∈ columns table)); [done |].
    exfalso. apply Hv. by exists key. }
  rewrite !row_of_lookup. unfold inject_timestamps in *.
  rewrite !decide_True.
  - rewrite lookup_insert_eq.
    by rewrite lookup_insert_ne, lookup_insert_eq.
  - apply Hcol. rewrite lookup_insert_ne, lookup_insert_eq; done.
  - apply Hcol. by rewrite lookup_insert_eq.
Qed.

End WithStorage.

(** X8: without a buffer every valid record is committed at once, as
    a one-row insert, whatever the batch size; the call returns the
    result handle. *)
Theorem unbuffered_insert_commits_one_row (T : Z) execute_ok commit_ok
    (event_data : Row) table db :
  ¬ undeclared_field event_data table →
  execute_ok db table [row_of table event_data] = true →
  commit_ok (mkSession
               (pending db ++ [(table_name table, [row_of table event_data])])
               (committed db)) = true →
  _insert T execute_ok commit_ok event_data table None db
  = (Ok (Some (mkResult (table_name table) 1)), None,
     mkSession [] (committed db ++ pending db
                   ++ [(table_name table, [row_of table event_data])])).
Proof.
  intros Hv He Hc. unfold _insert, row_of in *.
  apply leftover_empty in Hv.
  destruct (fill table event_data) as [obj rest]. simpl in *. subst rest.
  rewrite bool_decide_eq_true_2 by done. simpl.
  unfold db_execute. rewrite He. unfold db_commit. simpl. by rewrite Hc.
Qed.

Lemma unbuffered_insert_commits_one_row_witness :
  _insert 5 accept_execute accept_commit sample1 MemoryStat None
    empty_session
  = (Ok (Some (mkResult "memory_stat" 1)), None,
     mkSession [] [("memory_stat", [row_of MemoryStat sample1])]).
Proof.
  apply (unbuffered_insert_commits_one_row 5 accept_execute accept_commit
           sample1 MemoryStat empty_session).
  - apply leftover_empty. vm_compute. reflexivity.
  - reflexivity.
  - reflexivity.
Defined.

(** X9: a flush sends everything the buffer holds: when a valid record
    brings a buffer, whatever it held already (rows kept after a
    refused commit included), to the threshold or beyond and the
    storage accepts, all its rows and the new one go out in arrival
    order as one insert and the buffer is emptied. *)
Theorem flush_sends_whole_buffer (T : Z) execute_ok commit_ok
    (event_data : Row) table (b : list Row) db :
  ¬ undeclared_field event_data table →
  (T ≤ Z.of_nat (length b) + 1)%Z →
  execute_ok db table (b ++ [row_of table event_data]) = true →
  commit_ok (mkSession
               (pending db
                ++ [(table_name table, b ++ [row_of table event_data])])
               (committed db)) = true →
  _insert T execute_ok commit_ok event_data table (Some b) db
  = (Ok (Some (mkResult (table_name table) (S (length b)))), Some [],
     mkSession [] (committed db ++ pending db
                   ++ [(table_name table, b ++ [row_of table event_data])])).
Proof.
  intros Hv Hge He Hc.
  rewrite (insert_flushes T execute_ok commit_ok) by done.
  rewrite length_app. simpl. by rewrite Nat.add_1_r.
Qed.

Lemma flush_sends_whole_buffer_witness :
  _insert 1 accept_execute accept_commit sample2 MemoryStat
    (Some [row_of MemoryStat sample1]) empty_session
  = (Ok (Some (mkResult "memory_stat" 2)), Some [],
     mkSession []
       [("memory_stat",
         [row_of MemoryStat sample1] ++ [row_of MemoryStat sample2])]).
Proof.
  apply (flush_sends_whole_buffer 1 accept_execute accept_commit sample2
           MemoryStat [row_of MemoryStat sample1] empty_session).
  - apply leftover_empty. vm_compute. reflexivity.
  - simpl. lia.
  - reflexivity.
  - reflexivity.
Defined.

(** X10: the row [_insert] builds from a valid record has exactly the
    columns of the table: a column the record supplies holds the
    supplied value, every other column holds [None].  This holds for
    every batch size and with or without a buffer, and the row is
    where the call puts it: appended to the buffer by a call that
    only buffers, the last row of the insert a flushing call commits,
    and left at the end of the buffer by a call the storage refuses. *)
Theorem buffered_row_has_table_columns (T : Z) execute_ok commit_ok
    (event_data : Row) table (buffer : option (list Row)) db :
  ¬ undeclared_field event_data table →
  ∃ row,
    (∀ key, row !! key
            = if decide (key ∈ columns table)
              then Some (default VNone (event_data !! key))
              else None)
    ∧ let rows := default [] buffer ++ [row] in
      let run := _insert T execute_ok commit_ok event_data table buffer db in
      match run.1.1 with
      | Ok None =>
          (∃ b, buffer = Some b ∧ (Z.of_nat (length b) + 1 < T)%Z)
          ∧ run.1.2 = Some rows ∧ run.2 = db
      | Ok (Some result) =>
          (∀ b, buffer = Some b → (T ≤ Z.of_nat (length b) + 1)%Z)
          ∧ run.1.2 = (λ _, []) <$> buffer
          ∧ committed run.2
            = committed db ++ pending db ++ [(table_name table, rows)]
      | Raise e =>
          e = CommitFailure
          ∧ run.1.2 = (λ b, b ++ [row]) <$> buffer
          ∧ committed run.2 = committed db
      end.
Proof.
  intros Hv. exists (row_of table event_data). split.
  - apply row_of_lookup.
  - by apply insert_places_row.
Qed.

Lemma buffered_row_has_table_columns_witness :
  ∃ row,
    (∀ key, row !! key
            = if decide (key ∈ columns MemoryStat)
              then Some (default VNone (untimed !! key))
              else None)
    ∧ (_insert 1 accept_execute accept_commit untimed MemoryStat
         (Some [row_of MemoryStat sample1]) empty_session).1.2
      = Some []
    ∧ committed
        (_insert 1 accept_execute accept_commit untimed MemoryStat
           (Some [row_of MemoryStat sample1]) empty_session).2
      = [("memory_stat", [row_of MemoryStat sample1; row])].
Proof.
  assert (¬ undeclared_field untimed MemoryStat) as Hv.
  { apply leftover_empty. vm_compute. reflexivity. }
  assert ((_insert 1 accept_execute accept_commit untimed MemoryStat
             (Some [row_of MemoryStat sample1]) empty_session).1.1
          = Ok (Some (mkResult "memory_stat" 2))) as Hr.
  { vm_compute. reflexivity. }
  destruct (buffered_row_has_table_columns 1 accept_execute accept_commit
              untimed MemoryStat (Some [row_of MemoryStat sample1])
              empty_session Hv) as (row & Hrow & Hrun).
  cbn zeta in Hrun. rewrite Hr in Hrun. destruct Hrun as (_ & Hb & Hc).
  exists row. split_and!; [exact Hrow | exact Hb | exact Hc].
Defined.

(** X11: the timestamps of [insert_action_event], [insert_screenshot]
    and [insert_window_event] win over the caller's: whatever the
    caller's dictionary held under those keys, the row built carries
    the two timestamp arguments.  For every batch size (with the
    source's [BATCH_SIZE = 1] every call flushes): a call that returns
    after a flush has emptied the buffer and committed the buffered
    rows followed by this row as one insert; a call that returns
    without a flush has appended the row to the buffer and left the
    session alone; a call the storage refuses raises with the row at
    the end of the buffer and nothing committed. *)
Theorem wrapper_stamps_row wrapper (T : Z) execute_ok commit_ok
    table (b : list Row) rt et (event_data : Row) db :
  wrapper ∈ [insert_action_event; insert_screenshot; insert_window_event] →
  ¬ undeclared_field (inject_timestamps rt et event_data) table →
  ∃ row,
    row !! "recording_timestamp" = Some (VInt rt)
    ∧ row !! "timestamp" = Some (VInt et)
    ∧ let run :=
        wrapper T execute_ok commit_ok table b rt et event_data db in
      match run.1.1 with
      | Ok _ =>
          if bool_decide (T ≤ Z.of_nat (length b) + 1)%Z
          then run.1.2 = []
               ∧ committed run.2
                 = committed db ++ pending db
                   ++ [(table_name table, b ++ [row])]
          else run.1.2 = b ++ [row] ∧ run.2 = db
      | Raise e =>
          e = CommitFailure
          ∧ run.1.2 = b ++ [row]
          ∧ committed run.2 = committed db
      end.
Proof.
  intros Hw Hv.
  exists (row_of table (inject_timestamps rt et event_data)).
  destruct (stamped_row table rt et event_data Hv) as [H1 H2].
  split_and!; [done | done |].
  assert (wrapper T execute_ok commit_ok table b rt et event_data db
          = insert_into T execute_ok commit_ok table b
              (inject_timestamps rt et event_data) db) as ->.
  { repeat (apply elem_of_cons in Hw as [-> | Hw]; [done |]).
    by apply elem_of_nil in Hw. }
  pose proof (insert_places_row T execute_ok commit_ok
                (inject_timestamps rt et event_data) table (Some b) db Hv)
    as H.
  cbn zeta in *. unfold insert_into.
  destruct (_insert T execute_ok commit_ok
              (inject_timestamps rt et event_data) table (Some b) db)
    as [[[[result |] | e] b'] db'];
    cbn [fst snd fmap option_fmap option_map default] in *.
  - destruct H as (Hge & -> & Hc).
    rewrite bool_decide_eq_true_2 by by apply Hge. done.
  - destruct H as ((b0 & [= <-] & Hlt) & -> & ->).
    rewrite bool_decide_eq_false_2 by lia. done.
  - destruct H as (-> & -> & Hc). done.
Qed.

Lemma wrapper_stamps_row_witness :
  ∃ row,
    row !! "recording_timestamp" = Some (VInt 7)
    ∧ row !! "timestamp" = Some (VInt 2)
    ∧ (insert_action_event 1 accept_execute accept_commit MemoryStat []
         7 2 sample1 empty_session).1.2 = []
    ∧ committed
        (insert_action_event 1 accept_execute accept_commit MemoryStat []
           7 2 sample1 empty_session).2
      = [("memory_stat", [row])].
Proof.
  assert (insert_action_event
          ∈ [insert_action_event; insert_screenshot; insert_window_event])
    as Hw by apply list_elem_of_here.
  assert (¬ undeclared_field (inject_timestamps 7 2 sample1) MemoryStat)
    as Hv.
  { apply leftover_empty. vm_compute. reflexivity. }
  assert ((insert_action_event 1 accept_execute accept_commit MemoryStat []
             7 2 sample1 empty_session).1.1 = Ok tt) as Hr.
  { vm_compute. reflexivity. }
  destruct (wrapper_stamps_row insert_action_event 1 accept_execute
              accept_commit MemoryStat [] 7 2 sample1 empty_session Hw Hv)
    as (row & H1 & H2 & Hrun).
  cbn zeta in Hrun. rewrite Hr in Hrun.
  rewrite bool_decide_eq_true_2 in Hrun by (simpl; lia).
  destruct Hrun as [Hb Hc].
  exists row. split_and!; [exact H1 | exact H2 | exact Hb | exact Hc].
Defined.

(** X12: [insert_memory_stat] fails the assertion exactly when the
    table lacks one of the three columns it fills. *)
Theorem memory_stat_needs_its_columns (T : Z) execute_ok commit_ok
    table (b : list Row) rt usage ts db :
  (∃ msg, (insert_memory_stat T execute_ok commit_ok table b rt usage ts
             db).1.1 = Raise (AssertionError msg))
  ↔ ¬ ("recording_timestamp" ∈ columns table
       ∧ "memory_usage_bytes" ∈ columns table
       ∧ "timestamp" ∈ columns table).
Proof.
  unfold insert_memory_stat. rewrite insert_into_assertion.
  unfold undeclared_field. split.
  - intros (key & Hs & Hn) (H1 & H2 & H3). apply Hn.
    apply lookup_insert_is_Some in Hs as [<- | [_ Hs]]; [done |].
    apply lookup_insert_is_Some in Hs as [<- | [_ Hs]]; [done |].
    destruct Hs as [v Hs]. by apply lookup_singleton_Some in Hs as [<- _].
  - intros H.
    destruct (decide ("recording_timestamp" ∈ columns table)) as [H1 |].
    2: { exists "recording_timestamp". split; [| done].
         by rewrite lookup_insert_eq. }
    destruct (decide ("memory_usage_bytes" ∈ columns table)) as [H2 |].
    2: { exists "memory_usage_bytes". split; [| done].
         rewrite lookup_insert_ne, lookup_insert_eq; done. }
    destruct (decide ("timestamp" ∈ columns table)) as [H3 |].
    2: { exists "timestamp". split; [| done].
         rewrite !lookup_insert_ne by done. by rewrite lookup_singleton_eq. }
    by destruct H.
Qed.

(** X13: [insert_perf_stat] fails the assertion exactly when the table
    lacks one of the four columns it fills. *)
Theorem perf_stat_needs_its_columns (T : Z) execute_ok commit_ok
    table (b : list Row) rt event_type start_time end_time db :
  (∃ msg, (insert_perf_stat T execute_ok commit_ok table b rt event_type
             start_time end_time db).1.1 = Raise (AssertionError msg))
  ↔ ¬ ("recording_timestamp" ∈ columns table
       ∧ "event_type" ∈ columns table
       ∧ "start_time" ∈ columns table
       ∧ "end_time" ∈ columns table).
Proof.
  unfold insert_perf_stat. rewrite insert_into_assertion.
  unfold undeclared_field. split.
  - intros (key & Hs & Hn) (H1 & H2 & H3 & H4). apply Hn.
    apply lookup_insert_is_Some in Hs as [<- | [_ Hs]]; [done |].
    apply lookup_insert_is_Some in Hs as [<- | [_ Hs]]; [done |].
    apply lookup_insert_is_Some in Hs as [<- | [_ Hs]]; [done |].
    destruct Hs as [v Hs]. by apply lookup_singleton_Some in Hs as [<- _].
  - intros H.
    destruct (decide ("recording_timestamp" ∈ columns table)) as [H1 |].
    2: { exists "recording_timestamp". split; [| done].
         by rewrite lookup_insert_eq. }
    destruct (decide ("event_type" ∈ columns table)) as [H2 |].
    2: { exists "event_type". split; [| done].
         rewrite lookup_insert_ne, lookup_insert_eq; done. }
    destruct (decide ("start_time" ∈ columns table)) as [H3 |].
    2: { exists "start_time". split; [| done].
         rewrite !lookup_insert_ne by done. by rewrite lookup_insert_eq. }
    destruct (decide ("end_time" ∈ columns table)) as [H4 |].
    2: { exists "end_time". split; [| done].
         rewrite !lookup_insert_ne by done. by rewrite lookup_singleton_eq. }
    by destruct H.
Qed.

(** X14: with the batch size of the source, [1], and a storage that
    accepts its inserts, every record offered to an empty buffer is
    committed by its own call: the records end up as one single-row
    insert each, in the order they came, and the buffer is empty after
    every call. *)
Theorem batch_size_one_commits_each execute_ok commit_ok
    (records : list Row) table db :
  Forall (λ event_data, ¬ undeclared_field event_data table) records →
  (∀ db' t rows, execute_ok db' t rows = true) →
  (∀ db', commit_ok db' = true) →
  pending db = [] →
  insert_each 1 execute_ok commit_ok records table [] db
  = (Ok tt, [],
     mkSession []
       (committed db
        ++ ((λ event_data, (table_name table, [row_of table event_data]))
            <$> records))).
Proof.
  intros Hv He Hc. revert db.
  induction Hv as [| r records Hr _ IH]; intros db Hp.
  - simpl. rewrite app_nil_r. destruct db; simpl in *. by subst.
  - cbn [insert_each].
    rewrite (insert_flushes 1 execute_ok commit_ok) by (done || simpl; lia).
    cbn [default]. rewrite IH by done. cbn [committed].
    rewrite Hp. simpl. by rewrite <- app_assoc.
Qed.

Lemma batch_size_one_commits_each_witness :
  insert_each 1 accept_execute accept_commit [sample1; sample2] MemoryStat
    [] empty_session
  = (Ok tt, [],
     mkSession []
       (committed empty_session
        ++ ((λ event_data, ("memory_stat", [row_of MemoryStat event_data]))
            <$> [sample1; sample2]))).
Proof.
  apply (batch_size_one_commits_each accept_execute accept_commit
           [sample1; sample2] MemoryStat empty_session).
  - repeat constructor; apply leftover_empty; vm_compute; reflexivity.
  - reflexivity.
  - reflexivity.
  - reflexivity.
Defined.

End WriterExtras.

(** ** Query layer *)

Module QueryFacts.
Import Query.

(** [_get] returns the rows of the recording, each once if the table
    holds each once. *)
Lemma _get_NoDup {A} `{BaseModel A} (rows : list A) ts :
  NoDup rows → NoDup (_get rows ts).
Proof.
  intros Hnd. unfold _get. rewrite merge_sort_Permutation.
  by apply NoDup_filter.
Qed.

Lemma _get_elem_of {A} `{BaseModel A} (rows : list A) ts x :
  x ∈ _get rows ts ↔ x ∈ rows ∧ recording_timestamp_of x = ts.
Proof.
  unfold _get. rewrite merge_sort_Permutation, list_elem_of_filter. tauto.
Qed.

(** [_get] returns the rows in ascending timestamp order. *)
Lemma _get_sorted {A} `{BaseModel A} (rows : list A) ts :
  Sorted by_timestamp (_get rows ts).
Proof.
  unfold _get. apply Sorted_merge_sort.
  intros a b. unfold by_timestamp. lia.
Qed.

Lemma filter_none {A} (P : A → Prop) `{!∀ a, Decision (P a)} (l : list A) :
  (∀ a, a ∈ l → ¬ P a) → filter P l = [].
Proof.
  induction l as [| b l IH]; intros Hl; [done |].
  rewrite filter_cons, decide_False by (apply Hl, list_elem_of_here).
  apply IH. intros a Ha. apply Hl. by apply list_elem_of_further.
Qed.


End QueryFacts.

(** ** Screenshot diff chain *)

Module DiffChainFacts.
Import DiffChain.
Implicit Types (σ : store) (log new : list effect) (r p : ref).

Lemma update_same σ r f : update σ r f r = f (σ r).
Proof. unfold update. by rewrite decide_True. Qed.

Lemma update_other σ r r' f : r' ≠ r → update σ r f r' = σ r'.
Proof. intros. unfold update. by rewrite decide_False. Qed.

(** *** Linking *)

Lemma link_cons2 a b l σ :
  link (a :: b :: l) σ = link (b :: l) (update σ b (set_prev (Some a))).
Proof. reflexivity. Qed.

Lemma link_untouched l σ r : r ∉ drop 1 l → link l σ r = σ r.
Proof.
  revert σ. induction l as [| a l IH]; intros σ Hr; [done |].
  destruct l as [| b l]; [done |].
  rewrite link_cons2. simpl in Hr.
  apply not_elem_of_cons in Hr as [Hb Hl].
  rewrite IH by done. by rewrite update_other.
Qed.

Lemma link_prev l σ i p c :
  NoDup l → l !! i = Some p → l !! S i = Some c →
  prev (link l σ c) = Some p.
Proof.
  revert σ i. induction l as [| a l IH]; intros σ i Hnd Hp Hc; [done |].
  destruct l as [| b l]; [done |].
  rewrite link_cons2. apply NoDup_cons in Hnd as [Ha Hnd].
  destruct i as [| i].
  - simpl in Hp, Hc. simplify_eq.
    apply NoDup_cons in Hnd as [Hc _].
    rewrite link_untouched by done. by rewrite update_same.
  - by apply (IH _ i).
Qed.

Lemma link_first_prev l σ first :
  l !! 0 = Some first → prev (link_first l σ first) = Some first.
Proof.
  destruct l as [| a l]; [done |]. simpl. intros [= ->].
  by rewrite update_same.
Qed.

Lemma link_first_later l σ i c :
  NoDup l → l !! S i = Some c → link_first l σ c = σ c.
Proof.
  destruct l as [| a l]; [done |]. simpl. intros Hnd Hc.
  apply NoDup_cons in Hnd as [Ha _].
  rewrite update_other; [done |].
  intros ->. apply Ha. by eapply list_elem_of_lookup_2.
Qed.

(** *** The relation [touched] *)

Lemma touched_refl σ : touched [] σ σ.
Proof.
  constructor; try done; intros r Hr; by apply elem_of_nil in Hr.
Qed.

Lemma touched_keeps_diff new σ σ' r :
  touched new σ σ' → truthy (png_diff_data (σ r)) = true →
  png_diff_data (σ' r) = png_diff_data (σ r).
Proof.
  intros Ht Hp.
  destruct (decide (png_diff_data (σ' r) = png_diff_data (σ r))) as [| Hne];
    [done |].
  apply (touched_diff _ _ _ Ht), (touched_diff_absent _ _ _ Ht) in Hne.
  destruct Hne. congruence.
Qed.

Lemma touched_keeps_mask new σ σ' r :
  touched new σ σ' → truthy (png_diff_mask_data (σ r)) = true →
  png_diff_mask_data (σ' r) = png_diff_mask_data (σ r).
Proof.
  intros Ht Hp.
  destruct (decide (png_diff_mask_data (σ' r) = png_diff_mask_data (σ r)))
    as [| Hne]; [done |].
  apply (touched_mask _ _ _ Ht), (touched_mask_absent _ _ _ Ht) in Hne.
  destruct Hne. congruence.
Qed.

Lemma touched_trans n1 n2 σ σ1 σ2 :
  touched n1 σ σ1 → touched n2 σ1 σ2 → touched (n1 ++ n2) σ σ2.
Proof.
  intros H1 H2. constructor.
  - intros r. rewrite (touched_prev _ _ _ H2). apply (touched_prev _ _ _ H1).
  - intros r. destruct (touched_frame _ _ _ H1 r) as (? & ? & ?).
    destruct (touched_frame _ _ _ H2 r) as (? & ? & ?). split_and!; congruence.
  - intros r Hne. apply elem_of_app.
    destruct (decide (png_diff_data (σ1 r) = png_diff_data (σ r))) as [E |].
    + right. apply (touched_diff _ _ _ H2). congruence.
    + left. by apply (touched_diff _ _ _ H1).
  - intros r Hne. apply elem_of_app.
    destruct (decide (png_diff_mask_data (σ1 r) = png_diff_mask_data (σ r)))
      as [E |].
    + right. apply (touched_mask _ _ _ H2). congruence.
    + left. by apply (touched_mask _ _ _ H1).
  - intros r [Hin | Hin]%elem_of_app.
    + by apply (touched_diff_absent _ _ _ H1).
    + apply (touched_diff_absent _ _ _ H2) in Hin as [Hf Hp].
      rewrite (touched_prev _ _ _ H1) in Hp. split; [| done].
      destruct (truthy (png_diff_data (σ r))) eqn:E; [| done].
      rewrite (touched_keeps_diff _ _ _ _ H1 E) in Hf. congruence.
  - intros r [Hin | Hin]%elem_of_app.
    + by apply (touched_mask_absent _ _ _ H1).
    + apply (touched_mask_absent _ _ _ H2) in Hin as [Hf Hp].
      rewrite (touched_prev _ _ _ H1) in Hp. split; [| done].
      destruct (truthy (png_diff_mask_data (σ r))) eqn:E; [| done].
      rewrite (touched_keeps_mask _ _ _ _ H1 E) in Hf. congruence.
  - apply Forall_app. split; by eapply touched_only.
Qed.



Lemma touched_diff_attempt σ r :
  truthy (png_diff_data (σ r)) = false → prev (σ r) ≠ None →
  touched [ComputeDiff r] σ σ.
Proof.
  intros Hf Hp. constructor; try done.
  - intros r0 [= ->]%list_elem_of_singleton. done.
  - intros r0 [=]%list_elem_of_singleton.
  - by repeat constructor.
Qed.

Lemma touched_mask_attempt σ r :
  truthy (png_diff_mask_data (σ r)) = false → prev (σ r) ≠ None →
  touched [ComputeDiffMask r] σ σ.
Proof.
  intros Hf Hp. constructor; try done.
  - intros r0 [=]%list_elem_of_singleton.
  - intros r0 [= ->]%list_elem_of_singleton. done.
  - by repeat constructor.
Qed.

(** Splits on whether a reference is the one just assigned to. *)
Local Ltac at_ref r0 r :=
  destruct (decide (r0 = r)) as [-> |];
  [rewrite ?update_same | rewrite ?update_other by done]; simpl.

Lemma touched_diff_assign σ r b :
  truthy (png_diff_data (σ r)) = false → prev (σ r) ≠ None →
  touched [ComputeDiff r] σ (update σ r (set_png_diff_data (Some b))).
Proof.
  intros Hf Hp. constructor.
  - intros r0. by at_ref r0 r.
  - intros r0. by at_ref r0 r.
  - intros r0. at_ref r0 r; intros H; [apply list_elem_of_here | done].
  - intros r0. by at_ref r0 r.
  - intros r0 [= ->]%list_elem_of_singleton. done.
  - intros r0 [=]%list_elem_of_singleton.
  - by repeat constructor.
Qed.

Lemma touched_mask_assign σ r b :
  truthy (png_diff_mask_data (σ r)) = false → prev (σ r) ≠ None →
  touched [ComputeDiffMask r] σ (update σ r (set_png_diff_mask_data (Some b))).
Proof.
  intros Hf Hp. constructor.
  - intros r0. by at_ref r0 r.
  - intros r0. by at_ref r0 r.
  - intros r0. by at_ref r0 r.
  - intros r0. at_ref r0 r; intros H; [apply list_elem_of_here | done].
  - intros r0 [=]%list_elem_of_singleton.
  - intros r0 [= ->]%list_elem_of_singleton. done.
  - by repeat constructor.
Qed.

(** What a refusal does to the objects stays within [touched]. *)
Lemma touched_unsettle new σ σ' (left : ref → option bytes * option bytes) :
  touched new σ σ' →
  touched new σ (λ x, unsettle (σ x) (σ' x) (left x)).
Proof.
  intros T. constructor; try apply T.
  - intros r. simpl. destruct (decide _); [done |].
    intros _. by apply (touched_diff _ _ _ T).
  - intros r. simpl. destruct (decide _); [done |].
    intros _. by apply (touched_mask _ _ _ T).
Qed.

Lemma truthy_nonempty b : b ≠ [] → truthy (Some b) = true.
Proof. by destruct b. Qed.

Section WithImaging.
Variable diff_png : Screenshot → Screenshot → option bytes.
Variable diff_mask_png : Screenshot → Screenshot → option bytes.
Variable bulk_save_ok : list Screenshot → bool.
Variable after_refusal : store → ref → option bytes * option bytes.

Local Abbreviation cache_diff := (cache_diff diff_png).
Local Abbreviation cache_diff_mask := (cache_diff_mask diff_mask_png).
Local Abbreviation diff_body := (diff_body diff_png diff_mask_png).
Local Abbreviation diff_loop := (diff_loop diff_png diff_mask_png).
Local Abbreviation save_screenshot_diff :=
  (save_screenshot_diff diff_png diff_mask_png bulk_save_ok
     after_refusal).

Local Ltac run_monad :=
  unfold bind, read, gets, emit, modify, assign, computed, ret, raise;
  simpl.

(** *** The steps of the pass, case by case *)

Lemma cache_diff_cases r p u st :
  cache_diff r p u st
  = if truthy (png_diff_data (st.1 r)) then (Ok u, st)
    else match diff_png (st.1 r) (st.1 p) with
         | Some b =>
             (Ok true,
              (update st.1 r (set_png_diff_data (Some b)),
               st.2 ++ [ComputeDiff r]))
         | None =>
             (Raise DiffComputationFailure,
              (st.1, st.2 ++ [ComputeDiff r]))
         end.
Proof.
  unfold DiffChain.cache_diff, bind, read, gets, emit, modify, assign,
    computed, ret, raise.
  destruct st as [σ log]. simpl.
  destruct (truthy (png_diff_data (σ r))); [done |]. simpl.
  by destruct (diff_png (σ r) (σ p)).
Qed.

Lemma cache_diff_mask_cases r p u st :
  cache_diff_mask r p u st
  = if truthy (png_diff_mask_data (st.1 r)) then (Ok u, st)
    else match diff_mask_png (st.1 r) (st.1 p) with
         | Some b =>
             (Ok true,
              (update st.1 r (set_png_diff_mask_data (Some b)),
               st.2 ++ [ComputeDiffMask r]))
         | None =>
             (Raise DiffComputationFailure,
              (st.1, st.2 ++ [ComputeDiffMask r]))
         end.
Proof.
  unfold DiffChain.cache_diff_mask, bind, read, gets, emit, modify,
    assign, computed, ret, raise.
  destruct st as [σ log]. simpl.
  destruct (truthy (png_diff_mask_data (σ r))); [done |]. simpl.
  by destruct (diff_mask_png (σ r) (σ p)).
Qed.

Lemma diff_body_cases r u st :
  diff_body r u st
  = match prev (st.1 r) with
    | None => (Ok u, st)
    | Some p =>
        match cache_diff r p u st with
        | (Ok u1, st1) => cache_diff_mask r p u1 st1
        | (Raise e, st1) => (Raise e, st1)
        end
    end.
Proof.
  unfold DiffChain.diff_body, bind at 1, read, gets.
  by destruct (prev (st.1 r)).
Qed.

Lemma diff_loop_cons a l u st :
  diff_loop (a :: l) u st
  = match diff_body a u st with
    | (Ok u1, st1) => diff_loop l u1 st1
    | (Raise e, st1) => (Raise e, st1)
    end.
Proof. reflexivity. Qed.

Lemma save_screenshot_diff_cases l st :
  save_screenshot_diff l st
  = match diff_loop l false st with
    | (Ok false, st1) => (Ok l, st1)
    | (Ok true, st1) =>
        if bulk_save_ok (st1.1 <$> l)
        then (Ok l, (st1.1, st1.2 ++ [BulkSave l; Commit]))
        else (Raise CommitFailure,
              (λ x, unsettle (st.1 x) (st1.1 x) (after_refusal st1.1 x),
               st1.2 ++ [BulkSave l]))
    | (Raise e, st1) => (Raise e, st1)
    end.
Proof.
  unfold DiffChain.save_screenshot_diff, bind at 1, gets. cbn [fst snd].
  unfold bind at 1.
  destruct (diff_loop l false st) as [[[] | e] [σ1 log1]]; try done.
  unfold bulk_save, refused, bind, emit, gets, modify, ret, raise.
  cbn [fst snd].
  destruct (bulk_save_ok (σ1 <$> l)); cbn [fst snd];
    by rewrite <- ?app_assoc.
Qed.

Lemma cache_diff_spec r p u σ log :
  prev (σ r) = Some p →
  ∃ o σ' new,
    cache_diff r p u (σ, log) = (o, (σ', log ++ new))
    ∧ touched new σ σ'
    ∧ png_diff_mask_data (σ' r) = png_diff_mask_data (σ r)
    ∧ ∀ u', o = Ok u' →
        u' = u || bool_decide (new ≠ [])
        ∧ (truthy (png_diff_data (σ r)) = false → ComputeDiff r ∈ new)
        ∧ (nonempty_output diff_png →
           truthy (png_diff_data (σ' r)) = true).
Proof.
  intros Hp. unfold DiffChain.cache_diff. run_monad.
  destruct (truthy (png_diff_data (σ r))) eqn:Ht.
  - exists (Ok u), σ, []. rewrite app_nil_r.
    split_and!; [done | apply touched_refl | done |].
    intros u' [= <-]. split_and!; [| done | done].
    rewrite bool_decide_eq_false_2 by (by intros []).
    by rewrite orb_false_r.
  - destruct (diff_png (σ r) (σ p)) as [b |] eqn:Hb; simpl.
    + exists (Ok true), (update σ r (set_png_diff_data (Some b))),
        [ComputeDiff r].
      split_and!; [by rewrite Hb | | by rewrite update_same |].
      { apply touched_diff_assign; congruence. }
      intros u' [= <-]. split_and!.
      * by rewrite orb_true_r.
      * intros _. apply list_elem_of_here.
      * intros Hne. rewrite update_same. simpl.
        apply truthy_nonempty. intros ->. by eapply Hne.
    + exists (Raise DiffComputationFailure), σ, [ComputeDiff r].
      split_and!; [by rewrite Hb | | done | done].
      apply touched_diff_attempt; congruence.
Qed.

Lemma cache_diff_mask_spec r p u σ log :
  prev (σ r) = Some p →
  ∃ o σ' new,
    cache_diff_mask r p u (σ, log) = (o, (σ', log ++ new))
    ∧ touched new σ σ'
    ∧ ∀ u', o = Ok u' →
        u' = u || bool_decide (new ≠ [])
        ∧ (truthy (png_diff_mask_data (σ r)) = false →
           ComputeDiffMask r ∈ new)
        ∧ (nonempty_output diff_mask_png →
           truthy (png_diff_mask_data (σ' r)) = true).
Proof.
  intros Hp. unfold DiffChain.cache_diff_mask. run_monad.
  destruct (truthy (png_diff_mask_data (σ r))) eqn:Ht.
  - exists (Ok u), σ, []. rewrite app_nil_r.
    split_and!; [done | apply touched_refl |].
    intros u' [= <-]. split_and!; [| done | done].
    rewrite bool_decide_eq_false_2 by (by intros []).
    by rewrite orb_false_r.
  - destruct (diff_mask_png (σ r) (σ p)) as [b |] eqn:Hb; simpl.
    + exists (Ok true), (update σ r (set_png_diff_mask_data (Some b))),
        [ComputeDiffMask r].
      split_and!; [by rewrite Hb | |].
      { apply touched_mask_assign; congruence. }
      intros u' [= <-]. split_and!.
      * by rewrite orb_true_r.
      * intros _. apply list_elem_of_here.
      * intros Hne. rewrite update_same. simpl.
        apply truthy_nonempty. intros ->. by eapply Hne.
    + exists (Raise DiffComputationFailure), σ, [ComputeDiffMask r].
      split_and!; [by rewrite Hb | | done].
      apply touched_mask_attempt; congruence.
Qed.

Lemma nonempty_app_l {X} (a b : list X) :
  bool_decide (a ++ b ≠ []) = bool_decide (a ≠ []) || bool_decide (b ≠ []).
Proof. by destruct a, b. Qed.

(** What one iteration does. *)
Lemma diff_body_spec r u σ log :
  ∃ o σ' new,
    diff_body r u (σ, log) = (o, (σ', log ++ new))
    ∧ touched new σ σ'
    ∧ ∀ u', o = Ok u' →
        u' = u || bool_decide (new ≠ [])
        ∧ (prev (σ r) ≠ None →
           (truthy (png_diff_data (σ r)) = false → ComputeDiff r ∈ new)
           ∧ (truthy (png_diff_mask_data (σ r)) = false →
              ComputeDiffMask r ∈ new))
        ∧ (nonempty_output diff_png → nonempty_output diff_mask_png →
           prev (σ r) ≠ None → populated (σ' r)).
Proof.
  unfold DiffChain.diff_body.
  unfold bind at 1. unfold read at 1. unfold gets. cbn [fst snd].
  destruct (prev (σ r)) as [p |] eqn:Hp.
  - destruct (cache_diff_spec r p u σ log Hp)
      as (o1 & σ1 & n1 & E1 & T1 & M1 & K1).
    destruct o1 as [u1 |].
    + assert (prev (σ1 r) = Some p) as Hp1
        by (by rewrite (touched_prev _ _ _ T1)).
      destruct (cache_diff_mask_spec r p u1 σ1 (log ++ n1) Hp1)
        as (o2 & σ2 & n2 & E2 & T2 & K2).
      exists o2, σ2, (n1 ++ n2). rewrite app_assoc.
      split_and!;
        [unfold bind; by rewrite E1 | by eapply touched_trans |].
      intros u' ->.
      destruct (K1 u1 eq_refl) as (U1 & D1 & P1).
      destruct (K2 u' eq_refl) as (U2 & D2 & P2).
      split_and!.
      * rewrite U2, U1, nonempty_app_l. by rewrite orb_assoc.
      * intros _. split; intros Hf; apply elem_of_app.
        -- left. by apply D1.
        -- right. apply D2. by rewrite M1.
      * intros Hn1 Hn2 _. split; [| by apply P2].
        rewrite (touched_keeps_diff _ _ _ _ T2) by (by apply P1).
        by apply P1.
    + exists (Raise e), σ1, n1.
      split_and!; [unfold bind; by rewrite E1 | done | done].
  - exists (Ok u), σ, []. rewrite app_nil_r.
    split_and!; [done | apply touched_refl |].
    intros u' [= <-]. split_and!; [| done | done].
    rewrite bool_decide_eq_false_2 by (by intros []).
    by rewrite orb_false_r.
Qed.

(** What the whole loop does. *)
Lemma diff_loop_spec l u σ log :
  ∃ o σ' new,
    diff_loop l u (σ, log) = (o, (σ', log ++ new))
    ∧ touched new σ σ'
    ∧ ∀ u', o = Ok u' →
        u' = u || bool_decide (new ≠ [])
        ∧ (∀ r, r ∈ l → prev (σ r) ≠ None →
           (truthy (png_diff_data (σ r)) = false → ComputeDiff r ∈ new)
           ∧ (truthy (png_diff_mask_data (σ r)) = false →
              ComputeDiffMask r ∈ new))
        ∧ (nonempty_output diff_png → nonempty_output diff_mask_png →
           ∀ r, r ∈ l → prev (σ r) ≠ None → populated (σ' r)).
Proof.
  revert u σ log. induction l as [| a l IH]; intros u σ log.
  - exists (Ok u), σ, []. rewrite app_nil_r.
    split_and!; [done | apply touched_refl |].
    intros u' [= <-]. split_and!.
    + rewrite bool_decide_eq_false_2 by (by intros []).
      by rewrite orb_false_r.
    + intros r Hr. by apply elem_of_nil in Hr.
    + intros _ _ r Hr. by apply elem_of_nil in Hr.
  - destruct (diff_body_spec a u σ log)
      as (o1 & σ1 & n1 & E1 & T1 & K1).
    cbn [DiffChain.diff_loop].
    destruct o1 as [u1 |].
    + destruct (IH u1 σ1 (log ++ n1)) as (o2 & σ2 & n2 & E2 & T2 & K2).
      exists o2, σ2, (n1 ++ n2). rewrite app_assoc.
      split_and!;
        [unfold bind; by rewrite E1 | by eapply touched_trans |].
      intros u' ->.
      destruct (K1 u1 eq_refl) as (U1 & D1 & P1).
      destruct (K2 u' eq_refl) as (U2 & D2 & P2).
      split_and!.
      * rewrite U2, U1, nonempty_app_l. by rewrite orb_assoc.
      * intros r Hr Hp.
        assert (prev (σ1 r) ≠ None) as Hp1
          by (by rewrite (touched_prev _ _ _ T1)).
        split; intros Hf; apply elem_of_app.
        -- destruct (decide (png_diff_data (σ1 r) = png_diff_data (σ r)))
             as [E | Hne].
           ++ apply elem_of_cons in Hr as [-> | Hr].
              ** left. by apply D1.
              ** right. apply D2; [done | done | by rewrite E].
           ++ left. by apply (touched_diff _ _ _ T1).
        -- destruct (decide (png_diff_mask_data (σ1 r)
                             = png_diff_mask_data (σ r))) as [E | Hne].
           ++ apply elem_of_cons in Hr as [-> | Hr].
              ** left. by apply D1.
              ** right. apply D2; [done | done | by rewrite E].
           ++ left. by apply (touched_mask _ _ _ T1).
      * intros Hn1 Hn2 r Hr Hp.
        apply elem_of_cons in Hr as [-> | Hr].
        -- destruct (P1 Hn1 Hn2 Hp) as [Q1 Q2]. split.
           ++ by rewrite (touched_keeps_diff _ _ _ _ T2).
           ++ by rewrite (touched_keeps_mask _ _ _ _ T2).
        -- apply P2; try done. by rewrite (touched_prev _ _ _ T1).
    + exists (Raise e), σ1, n1.
      split_and!; [unfold bind; by rewrite E1 | done | done].
Qed.

(** A screenshot that needs nothing is passed over without a trace. *)
Lemma cache_diff_idle r p u (st : state) :
  truthy (png_diff_data (st.1 r)) = true →
  cache_diff r p u st = (Ok u, st).
Proof.
  intros H. unfold DiffChain.cache_diff, bind, read, gets.
  by rewrite H.
Qed.

Lemma cache_diff_mask_idle r p u (st : state) :
  truthy (png_diff_mask_data (st.1 r)) = true →
  cache_diff_mask r p u st = (Ok u, st).
Proof.
  intros H. unfold DiffChain.cache_diff_mask, bind, read, gets.
  by rewrite H.
Qed.

Lemma diff_body_idle r u (st : state) :
  (prev (st.1 r) ≠ None → populated (st.1 r)) →
  diff_body r u st = (Ok u, st).
Proof.
  intros H. unfold DiffChain.diff_body, bind at 1, read, gets.
  destruct (prev (st.1 r)) as [p |]; [| done].
  destruct H as [H1 H2]; [done |].
  unfold bind. rewrite cache_diff_idle by done.
  by rewrite cache_diff_mask_idle.
Qed.

Lemma diff_loop_idle l u (st : state) :
  (∀ r, r ∈ l → prev (st.1 r) ≠ None → populated (st.1 r)) →
  diff_loop l u st = (Ok u, st).
Proof.
  intros H. induction l as [| a l IH]; [done |].
  cbn [DiffChain.diff_loop]. unfold bind.
  rewrite diff_body_idle by (apply H; apply list_elem_of_here).
  apply IH. intros r Hr. apply H. by apply list_elem_of_further.
Qed.

(** The shape of a whole pass: the loop's computations, then nothing,
    or the bulk write, with its commit unless the storage refuses. *)
Lemma save_screenshot_diff_spec l σ log :
  ∃ o σ' new tail,
    save_screenshot_diff l (σ, log) = (o, (σ', log ++ new ++ tail))
    ∧ touched new σ σ'
    ∧ ((∃ e, o = Raise e ∧ tail = [])
       ∨ (o = Ok l ∧ new = [] ∧ tail = [])
       ∨ (o = Raise CommitFailure ∧ new ≠ [] ∧ tail = [BulkSave l])
       ∨ (o = Ok l ∧ new ≠ [] ∧ tail = [BulkSave l; Commit]))
    ∧ ∀ l', o = Ok l' →
        (∀ r, r ∈ l → prev (σ r) ≠ None →
           (truthy (png_diff_data (σ r)) = false → ComputeDiff r ∈ new)
           ∧ (truthy (png_diff_mask_data (σ r)) = false →
              ComputeDiffMask r ∈ new))
        ∧ (nonempty_output diff_png → nonempty_output diff_mask_png →
           ∀ r, r ∈ l → prev (σ r) ≠ None → populated (σ' r)).
Proof.
  destruct (diff_loop_spec l false σ log) as (o & σ' & new & E & T & K).
  rewrite save_screenshot_diff_cases, E. cbn [fst snd].
  destruct o as [u |].
  - destruct (K u eq_refl) as (U & D & P). simpl in U. subst u.
    destruct (decide (new = [])) as [-> | Hne].
    + rewrite bool_decide_eq_false_2 by (by intros []).
      exists (Ok l), σ', [], [].
      split_and!; [done | done | | done]. right. left. done.
    + rewrite bool_decide_eq_true_2 by done.
      destruct (bulk_save_ok (σ' <$> l)) eqn:Hok.
      * exists (Ok l), σ', new, [BulkSave l; Commit].
        split_and!; [by rewrite <- !app_assoc | done | | done].
        do 3 right. done.
      * eexists (Raise CommitFailure), _, new, [BulkSave l].
        split_and!; [by rewrite <- !app_assoc | | | done].
        -- by apply touched_unsettle.
        -- do 2 right. left. done.
  - exists (Raise e), σ', new, []. rewrite app_nil_r.
    split_and!; [done | done | | done]. left. eauto.
Qed.

(** *** What a computed field holds *)












Lemma save_screenshot_diff_idle l (st : state) :
  (∀ r, r ∈ l → prev (st.1 r) ≠ None → populated (st.1 r)) →
  save_screenshot_diff l st = (Ok l, st).
Proof.
  intros H. rewrite save_screenshot_diff_cases.
  by rewrite diff_loop_idle.
Qed.

(** [get_screenshots] for an existing recording, step by step. *)
Lemma get_screenshots_unfold SAVE table recording σ log :
  let screenshots :=
    Query._get (H := Screenshot_model σ) table (Query.timestamp recording) in
  let linked := link_first screenshots (link screenshots σ) in
  get_screenshots diff_png diff_mask_png bulk_save_ok after_refusal SAVE
    table (Some recording) (σ, log)
  = if SAVE then save_screenshot_diff screenshots (linked, log)
    else (Ok screenshots, (linked, log)).
Proof. by destruct SAVE. Qed.

End WithImaging.

Lemma computations_are_not_writes new :
  Forall (λ e, is_computation e = true) new → filter is_write new = [].
Proof.
  induction 1 as [| e new He _ IH]; [done |].
  rewrite filter_cons, IH. by destruct e.
Qed.

End DiffChainFacts.

(** ** The accessors and the diff chain: claims *)

Module DiffChainClaims.
Import DiffChain DiffChainFacts.
Implicit Types (σ : store) (log new : list effect) (r p : ref).




(** C10: for a screenshot table that holds each object once and an
    existing recording, [get_screenshots] leaves the screenshots of the
    recording, taken in timestamp order, linked as a chain: the first
    has itself as [prev] and every other one has its predecessor in the
    list; the list it returns is that list, and it does return when
    diffs are not requested. *)
Theorem screenshot_chain diff_png diff_mask_png bulk_save_ok after_refusal SAVE
    (table : list ref) recording σ log :
  NoDup table →
  let screenshots :=
    Query._get (H := Screenshot_model σ) table (Query.timestamp recording) in
  let run :=
    get_screenshots diff_png diff_mask_png bulk_save_ok after_refusal SAVE table
      (Some recording) (σ, log) in
  (∀ l, run.1 = Ok l → l = screenshots)
  ∧ (SAVE = false → run.1 = Ok screenshots)
  ∧ (∀ first, screenshots !! 0 = Some first →
       prev (run.2.1 first) = Some first)
  ∧ (∀ i p c, screenshots !! i = Some p → screenshots !! S i = Some c →
       prev (run.2.1 c) = Some p).
Proof.
  intros Hnd screenshots run.
  assert (NoDup screenshots) as Hnd' by (by apply QueryFacts._get_NoDup).
  pose (linked := link_first screenshots (link screenshots σ)).
  assert (∀ r, prev (run.2.1 r) = prev (linked r)
          ∧ (∀ l, run.1 = Ok l → l = screenshots)
          ∧ (SAVE = false → run.1 = Ok screenshots)) as Hrun.
  { intros r. subst run. rewrite get_screenshots_unfold.
    fold screenshots. fold linked. destruct SAVE.
    - destruct (save_screenshot_diff_spec diff_png diff_mask_png
                  bulk_save_ok after_refusal screenshots linked log)
        as (o & σ' & new & tail & E & T & Hshape & _).
      rewrite E. cbn [fst snd]. split_and!.
      + apply (touched_prev _ _ _ T).
      + intros l ->.
        destruct Hshape as [(e & ? & _) | [(? & _) | [(? & _) | (? & _)]]];
          congruence.
      + done.
    - cbn [fst snd]. split_and!; [done | by intros l [= <-] | done]. }
  split_and!.
  - intros l. by apply (Hrun 0).
  - by apply (Hrun 0).
  - intros first Hfirst. destruct (Hrun first) as [-> _].
    by apply link_first_prev.
  - intros i p c Hp Hc. destruct (Hrun c) as [-> _]. unfold linked.
    rewrite (link_first_later _ _ i) by done.
    by apply (link_prev _ _ i).
Qed.

Lemma screenshot_chain_witness :
  fetched.1 = Ok [0; 1; 2]
  ∧ prev (fetched.2.1 0) = Some 0
  ∧ prev (fetched.2.1 1) = Some 0
  ∧ prev (fetched.2.1 2) = Some 1.
Proof.
  assert (NoDup [2; 0; 1]) as Hnd
    by (apply (bool_decide_unpack (NoDup [2; 0; 1])); vm_compute; exact I).
  destruct (screenshot_chain some_diff some_diff accept_bulk expired true
              [2; 0; 1] recording7 store0 [] Hnd) as (_ & _ & Hfirst & Hnext).
  split_and!.
  - vm_compute. reflexivity.
  - apply Hfirst. reflexivity.
  - apply (Hnext 0 0 1); reflexivity.
  - apply (Hnext 1 1 2); reflexivity.
Defined.




(** C6: in every pass a diff field is computed only where the cached
    value was absent; a pass over a list whose listed screenshots with
    a [prev] all have both fields present computes nothing, writes
    nothing and changes nothing; a pass issues at most one bulk write,
    and only after a computation of that pass; and a second pass that
    follows a pass that returned (with an encoder that never yields an
    empty byte string) computes nothing and writes nothing. *)
Theorem diff_pass_idempotent diff_png diff_mask_png bulk_save_ok
    after_refusal (l : list ref) σ :
  let pass :=
    save_screenshot_diff diff_png diff_mask_png bulk_save_ok after_refusal
      l in
  let run := pass (σ, []) in
  (∀ r, ComputeDiff r ∈ run.2.2 → truthy (png_diff_data (σ r)) = false)
  ∧ (∀ r, ComputeDiffMask r ∈ run.2.2 →
       truthy (png_diff_mask_data (σ r)) = false)
  ∧ ((∀ r, r ∈ l → prev (σ r) ≠ None → populated (σ r)) →
     run = (Ok l, (σ, [])))
  ∧ (filter is_write run.2.2 = []
     ∨ (filter is_write run.2.2 = [BulkSave l]
        ∧ ∃ e, e ∈ run.2.2 ∧ is_computation e = true))
  ∧ (nonempty_output diff_png → nonempty_output diff_mask_png →
     run.1 = Ok l →
     pass (run.2.1, []) = (Ok l, (run.2.1, []))).
Proof.
  intros pass run. subst pass run.
  destruct (save_screenshot_diff_spec diff_png diff_mask_png
              bulk_save_ok after_refusal l σ []) as (o & σ' & new & tail & E & T & Hshape & K).
  split_and!.
  - rewrite E. cbn [fst snd app]. intros r [Hin | Hin]%elem_of_app.
    + by apply (touched_diff_absent _ _ _ T).
    + exfalso.
      destruct Hshape as [(? & _ & ->) | [(_ & _ & ->) | [(_ & _ & ->) | (_ & _ & ->)]]];
        repeat (apply elem_of_cons in Hin as [[=] | Hin]);
        by apply elem_of_nil in Hin.
  - rewrite E. cbn [fst snd app]. intros r [Hin | Hin]%elem_of_app.
    + by apply (touched_mask_absent _ _ _ T).
    + exfalso.
      destruct Hshape as [(? & _ & ->) | [(_ & _ & ->) | [(_ & _ & ->) | (_ & _ & ->)]]];
        repeat (apply elem_of_cons in Hin as [[=] | Hin]);
        by apply elem_of_nil in Hin.
  - intros Hall. by apply save_screenshot_diff_idle.
  - rewrite E. cbn [fst snd app]. rewrite filter_app.
    rewrite (computations_are_not_writes new) by apply (touched_only _ _ _ T).
    destruct Hshape as [(? & _ & ->) | [(_ & _ & ->) | [(_ & Hne & ->) | (_ & Hne & ->)]]];
      [by left | by left | right | right].
    + split; [done |]. destruct new as [| e new]; [done |].
      exists e. split; [apply list_elem_of_here |].
      pose proof (touched_only _ _ _ T) as Hall.
      by apply Forall_cons in Hall as [? _].
    + split; [done |]. destruct new as [| e new]; [done |].
      exists e. split; [apply list_elem_of_here |].
      pose proof (touched_only _ _ _ T) as Hall.
      by apply Forall_cons in Hall as [? _].
  - rewrite E. cbn [fst snd]. intros Hn1 Hn2 ->.
    destruct (K l eq_refl) as [_ P].
    apply save_screenshot_diff_idle. cbn [fst]. intros r Hr Hp.
    apply P; try done. by rewrite <- (touched_prev _ _ _ T).
Qed.

End DiffChainClaims.

(** ** Query layer and recordings: further properties *)

Module QueryExtras.
Import Query Recordings QueryFacts.

Lemma Sorted_prefix {A} (R : relation A) (l1 l2 : list A) :
  Sorted R (l1 ++ l2) → Sorted R l1.
Proof.
  induction l1 as [| x l1 IH]; simpl; intros H; [constructor |].
  apply Sorted_inv in H as [Hs Hd]. constructor; [by apply IH |].
  destruct l1; [constructor |]. simpl in Hd.
  apply HdRel_inv in Hd. by constructor.
Qed.

#[local] Instance newest_first_total : Total newest_first.
Proof. intros a b. unfold newest_first. lia. Qed.

#[local] Instance newest_first_trans : Transitive newest_first.
Proof. intros a b c. unfold newest_first. lia. Qed.

Lemma get_latest_recording_head table :
  get_latest_recording table = head (merge_sort newest_first table).
Proof.
  unfold get_latest_recording. by destruct (merge_sort newest_first table).
Qed.

Lemma get_latest_recording_Some table r :
  get_latest_recording table = Some r →
  r ∈ table ∧ ∀ r', r' ∈ table → (timestamp r' ≤ timestamp r)%Z.
Proof.
  rewrite get_latest_recording_head. intros H.
  apply head_Some in H as [rest H].
  pose proof (StronglySorted_merge_sort newest_first table) as Hs.
  pose proof (merge_sort_Permutation newest_first table) as Hp.
  rewrite H in Hs, Hp. split.
  - rewrite <- Hp. apply list_elem_of_here.
  - intros r' Hr'. rewrite <- Hp in Hr'.
    apply elem_of_cons in Hr' as [-> | Hr']; [lia |].
    apply StronglySorted_inv in Hs as [_ Hall].
    rewrite Forall_forall in Hall. by apply Hall.
Qed.

Lemma get_latest_recording_None table :
  get_latest_recording table = None ↔ table = [].
Proof.
  rewrite get_latest_recording_head, head_None. split.
  - intros H. apply Permutation_nil_r. rewrite <- H.
    by rewrite merge_sort_Permutation.
  - by intros ->.
Qed.

Lemma get_recording_Some table ts r :
  get_recording table ts = Some r → r ∈ table ∧ timestamp r = ts.
Proof.
  unfold get_recording. intros H. apply head_Some_elem_of in H.
  by apply list_elem_of_filter in H as [? ?].
Qed.

Lemma get_recording_None table ts :
  get_recording table ts = None ↔ ∀ r, r ∈ table → timestamp r ≠ ts.
Proof.
  unfold get_recording. rewrite head_None. split.
  - intros H r Hr Hts. exact (filter_nil_not_elem_of _ _ r H Hts Hr).
  - intros H. induction table as [| r table IH]; [done |].
    rewrite filter_cons. destruct (decide (timestamp r = ts)) as [E |].
    + exfalso. eapply H; [apply list_elem_of_here | done].
    + apply IH. intros r' Hr'. apply H. by apply list_elem_of_further.
Qed.

(** X15: for an existing recording [get_window_events] returns its
    window events and nothing else, each as often as the table holds
    it, in ascending timestamp order. *)
Theorem window_events_of_recording (table : list WindowEvent) r :
  ∃ l, get_window_events table (Some r) = Ok l
       ∧ Sorted by_timestamp l
       ∧ l ≡ₚ filter (λ w, we_recording_timestamp w = timestamp r) table.
Proof.
  exists (_get table (timestamp r)). split_and!.
  - done.
  - apply _get_sorted.
  - unfold _get. apply merge_sort_Permutation.
Qed.

(** X16: what [get_action_events] returns for an existing recording is
    an initial part of that recording's action events in ascending
    timestamp order: events of other recordings never appear and the
    order is kept. *)
Theorem action_events_of_recording STOP_SEQUENCES
    (table : list Trimmer.ActionEvent) r l :
  get_action_events STOP_SEQUENCES table (Some r) = Ok l →
  l `prefix_of` _get table (timestamp r)
  ∧ Sorted by_timestamp l
  ∧ ∀ e, e ∈ l → e ∈ table ∧ Trimmer.recording_timestamp e = timestamp r.
Proof.
  unfold get_action_events. intros H.
  destruct (Trimmer.filter_stop_sequences STOP_SEQUENCES
              (_get table (timestamp r))) as [[[] | ex] l'] eqn:E;
    [| discriminate].
  inversion H; subst l'. clear H.
  apply TrimmerFacts.filter_stop_sequences_prefix in E.
  split_and!; [done | |].
  - destruct E as [rest E].
    pose proof (_get_sorted table (timestamp r)) as Hs.
    rewrite E in Hs. by eapply Sorted_prefix.
  - intros e He.
    change (e ∈ table ∧ recording_timestamp_of e = timestamp r).
    apply (proj1 (_get_elem_of table (timestamp r) e)).
    destruct E as [rest ->]. apply elem_of_app. by left.
Qed.

Lemma action_events_of_recording_witness :
  [Trimmer.mkActionEvent 7 1 "press" (Some "a") None]
  `prefix_of`
    _get [Trimmer.mkActionEvent 7 3 "press" (Some "c") None;
          Trimmer.mkActionEvent 8 1 "press" (Some "z") None;
          Trimmer.mkActionEvent 7 2 "press" None (Some "ctrl");
          Trimmer.mkActionEvent 7 1 "press" (Some "a") None] 7.
Proof.
  apply (action_events_of_recording [["q"]] _ (mkRecording 7 "demo")).
  vm_compute. reflexivity.
Defined.

(** X17: [get_recording] returns a recording of the table with the
    timestamp asked for, and [None] exactly when the table has
    none. *)
Theorem get_recording_finds (table : list Recording) ts :
  match get_recording table ts with
  | Some r => r ∈ table ∧ timestamp r = ts
  | None => ∀ r, r ∈ table → timestamp r ≠ ts
  end.
Proof.
  destruct (get_recording table ts) as [r |] eqn:E.
  - by apply get_recording_Some.
  - by apply get_recording_None.
Qed.

(** X18: [get_latest_recording] returns a recording of the table whose
    timestamp no other exceeds, and [None] exactly when the table is
    empty. *)
Theorem latest_recording_is_newest (table : list Recording) :
  match get_latest_recording table with
  | Some r => r ∈ table ∧ ∀ r', r' ∈ table → (timestamp r' ≤ timestamp r)%Z
  | None => table = []
  end.
Proof.
  destruct (get_latest_recording table) as [r |] eqn:E.
  - by apply get_latest_recording_Some.
  - by apply get_latest_recording_None.
Qed.

(** X19: looking a recording up and asking for its action events fails
    with the assertion "Invalid recording." exactly when the lookup
    finds nothing: for [get_recording], when no recording has the
    timestamp; for [get_latest_recording], when there is no recording
    at all. *)
Theorem lookup_miss_is_refused STOP_SEQUENCES (recordings : list Recording)
    (events : list Trimmer.ActionEvent) ts :
  (get_action_events STOP_SEQUENCES events (get_recording recordings ts)
   = Raise (AssertionError "Invalid recording.")
   ↔ ∀ r, r ∈ recordings → timestamp r ≠ ts)
  ∧ (get_action_events STOP_SEQUENCES events
       (get_latest_recording recordings)
     = Raise (AssertionError "Invalid recording.")
     ↔ recordings = []).
Proof.
  assert (∀ r, get_action_events STOP_SEQUENCES events (Some r)
               ≠ Raise (AssertionError "Invalid recording.")) as Hsome.
  { intros r H. unfold get_action_events in H.
    destruct (Trimmer.filter_stop_sequences STOP_SEQUENCES
                (_get events (timestamp r))) as [[[] | ex] l'] eqn:E;
      [discriminate |].
    inversion H; subst.
    apply TrimmerExtras.filter_raise_cases in E.
    destruct E as [[E _] | [E _]]; discriminate. }
  split.
  - rewrite <- get_recording_None.
    destruct (get_recording recordings ts) as [r |]; [| done].
    split; [intros H; by apply Hsome in H | done].
  - rewrite <- get_latest_recording_None.
    destruct (get_latest_recording recordings) as [r |]; [| done].
    split; [intros H; by apply Hsome in H | done].
Qed.

(** X20: a recording that has been inserted is found again: after a
    successful [insert_recording], [get_recording] with its timestamp
    finds a recording with that timestamp, [get_latest_recording]
    finds one at least as new, and lookups of other timestamps answer
    as before; a refused commit leaves the table as it was. *)
Theorem inserted_recording_is_found commit_ok (data : Recording)
    (table : list Recording) :
  (commit_ok (table ++ [data]) = true →
   ∃ table',
     insert_recording commit_ok data table = (Ok data, table')
     ∧ (∃ r, get_recording table' (timestamp data) = Some r
             ∧ timestamp r = timestamp data)
     ∧ (∃ r, get_latest_recording table' = Some r
             ∧ (timestamp data ≤ timestamp r)%Z)
     ∧ (∀ ts, ts ≠ timestamp data →
              get_recording table' ts = get_recording table ts))
  ∧ (commit_ok (table ++ [data]) = false →
     insert_recording commit_ok data table = (Raise CommitFailure, table)).
Proof.
  unfold insert_recording. split; intros ->; [| done].
  exists (table ++ [data]). split_and!; [done | | |].
  - destruct (get_recording (table ++ [data]) (timestamp data)) as [r |] eqn:E.
    + exists r. split; [done |]. by apply get_recording_Some in E as [_ ?].
    + exfalso. rewrite get_recording_None in E.
      eapply E; [| done]. apply elem_of_app. right. apply list_elem_of_here.
  - destruct (get_latest_recording (table ++ [data])) as [r |] eqn:E.
    + exists r. split; [done |].
      apply get_latest_recording_Some in E as [_ E]. apply E.
      apply elem_of_app. right. apply list_elem_of_here.
    + apply get_latest_recording_None in E. by destruct table.
  - intros ts Hts. unfold get_recording.
    rewrite filter_app, filter_cons, decide_False by done.
    by rewrite filter_nil, app_nil_r.
Qed.

End QueryExtras.

(** ** Screenshot diff chain: further properties *)

Module DiffChainExtras.
Import DiffChain DiffChainFacts.
Implicit Types (σ : store) (log new : list effect) (r p x : ref)
  (st : state).

(** *** Linking changes [prev] and nothing else *)

Lemma set_prev_id (s : Screenshot) : set_prev (prev s) s = s.
Proof. by destruct s. Qed.

Lemma link_only_prev l σ x : ∃ q, link l σ x = set_prev q (σ x).
Proof.
  revert σ. induction l as [| a l IH]; intros σ.
  - exists (prev (σ x)). by rewrite set_prev_id.
  - destruct l as [| b l].
    + exists (prev (σ x)). by rewrite set_prev_id.
    + rewrite link_cons2.
      destruct (IH (update σ b (set_prev (Some a)))) as [q ->].
      exists q. unfold update. by destruct (decide (x = b)).
Qed.

Lemma link_first_only_prev l σ x : ∃ q, link_first l σ x = set_prev q (σ x).
Proof.
  destruct l as [| a l]; simpl.
  - exists (prev (σ x)). by rewrite set_prev_id.
  - unfold update. destruct (decide (x = a)).
    + by exists (Some a).
    + exists (prev (σ x)). by rewrite set_prev_id.
Qed.

Lemma link_first_untouched l σ x : x ∉ l → link_first l σ x = σ x.
Proof.
  destruct l as [| a l]; [done |]. simpl. intros Hx.
  apply not_elem_of_cons in Hx as [Hx _]. by rewrite update_other.
Qed.

Section WithImaging.
Variable diff_png : Screenshot → Screenshot → option bytes.
Variable diff_mask_png : Screenshot → Screenshot → option bytes.
Variable bulk_save_ok : list Screenshot → bool.
Variable after_refusal : store → ref → option bytes * option bytes.

Local Abbreviation cache_diff := (cache_diff diff_png).
Local Abbreviation cache_diff_mask := (cache_diff_mask diff_mask_png).
Local Abbreviation diff_body := (diff_body diff_png diff_mask_png).
Local Abbreviation diff_loop := (diff_loop diff_png diff_mask_png).
Local Abbreviation save_screenshot_diff :=
  (save_screenshot_diff diff_png diff_mask_png bulk_save_ok after_refusal).

Lemma unsettle_same (s : Screenshot) left : unsettle s s left = s.
Proof. destruct s. unfold unsettle. cbn. by rewrite !decide_True. Qed.

(** *** Only listed screenshots are assigned to *)

Lemma diff_body_frame r u st x :
  x ≠ r → (diff_body r u st).2.1 x = st.1 x.
Proof.
  intros Hx. rewrite diff_body_cases.
  destruct (prev (st.1 r)) as [p |]; [| done].
  rewrite cache_diff_cases.
  destruct (truthy (png_diff_data (st.1 r))).
  - rewrite cache_diff_mask_cases.
    destruct (truthy (png_diff_mask_data (st.1 r))); [done |].
    destruct (diff_mask_png _ _); cbn [fst snd]; [| done].
    by rewrite update_other.
  - destruct (diff_png _ _); cbn [fst snd]; [| done].
    rewrite cache_diff_mask_cases. cbn [fst snd].
    destruct (truthy _); cbn [fst snd]; [by rewrite update_other |].
    destruct (diff_mask_png _ _); cbn [fst snd];
      by rewrite ?update_other.
Qed.

Lemma diff_loop_frame l u st x :
  x ∉ l → (diff_loop l u st).2.1 x = st.1 x.
Proof.
  revert u st. induction l as [| a l IH]; intros u st Hx; [done |].
  apply not_elem_of_cons in Hx as [Ha Hl].
  rewrite diff_loop_cons.
  pose proof (diff_body_frame a u st x Ha) as Hb.
  destruct (diff_body a u st) as [[u1 | e] st1]; cbn [fst snd] in *.
  - by rewrite IH.
  - done.
Qed.

Lemma save_screenshot_diff_frame l st x :
  x ∉ l → (save_screenshot_diff l st).2.1 x = st.1 x.
Proof.
  intros Hx. rewrite save_screenshot_diff_cases.
  pose proof (diff_loop_frame l false st x Hx) as Hl.
  destruct (diff_loop l false st) as [[[] | e] st1]; cbn [fst snd] in *;
    try done.
  destruct (bulk_save_ok _); cbn [fst snd]; [done |].
  rewrite Hl. apply unsettle_same.
Qed.

(** *** The loop raises nothing but a failed computation *)

Lemma diff_body_raise r u st e :
  (diff_body r u st).1 = Raise e → e = DiffComputationFailure.
Proof.
  rewrite diff_body_cases.
  destruct (prev (st.1 r)) as [p |]; [| done].
  rewrite cache_diff_cases.
  destruct (truthy (png_diff_data (st.1 r))).
  - rewrite cache_diff_mask_cases.
    destruct (truthy _); [done |].
    destruct (diff_mask_png _ _); cbn [fst]; congruence.
  - destruct (diff_png _ _); cbn [fst snd]; [| congruence].
    rewrite cache_diff_mask_cases.
    destruct (truthy _); [done |].
    destruct (diff_mask_png _ _); cbn [fst]; congruence.
Qed.

Lemma diff_loop_raise l u st e :
  (diff_loop l u st).1 = Raise e → e = DiffComputationFailure.
Proof.
  revert u st. induction l as [| a l IH]; intros u st; [done |].
  rewrite diff_loop_cons.
  pose proof (diff_body_raise a u st) as Hb.
  destruct (diff_body a u st) as [[u1 | e'] st1]; cbn [fst] in *.
  - apply IH.
  - intros [= <-]. by apply Hb.
Qed.

(** *** With encoders that do not fail the loop returns *)

Lemma diff_body_returns r u st :
  (∀ s q, is_Some (diff_png s q)) →
  (∀ s q, is_Some (diff_mask_png s q)) →
  ∃ u', (diff_body r u st).1 = Ok u'.
Proof.
  intros H1 H2. rewrite diff_body_cases.
  destruct (prev (st.1 r)) as [p |]; [| by eexists].
  rewrite cache_diff_cases.
  destruct (truthy (png_diff_data (st.1 r))).
  - rewrite cache_diff_mask_cases.
    destruct (truthy _); [by eexists |].
    destruct (H2 (st.1 r) (st.1 p)) as [b ->]. by eexists.
  - destruct (H1 (st.1 r) (st.1 p)) as [b ->].
    rewrite cache_diff_mask_cases. cbn [fst snd].
    destruct (truthy _); [by eexists |].
    match goal with
    | |- context [diff_mask_png ?s ?q] => destruct (H2 s q) as [b' ->]
    end.
    by eexists.
Qed.

Lemma diff_loop_returns l u st :
  (∀ s q, is_Some (diff_png s q)) →
  (∀ s q, is_Some (diff_mask_png s q)) →
  ∃ u', (diff_loop l u st).1 = Ok u'.
Proof.
  intros H1 H2. revert u st.
  induction l as [| a l IH]; intros u st; [by eexists |].
  rewrite diff_loop_cons.
  destruct (diff_body_returns a u st H1 H2) as [u1 Hu].
  destruct (diff_body a u st) as [[u1' | e] st1]; cbn [fst] in *;
    [apply IH | discriminate].
Qed.

End WithImaging.

Lemma some_diff_nonempty : nonempty_output some_diff.
Proof. intros s p. discriminate. Qed.

Lemma some_diff_total s q : is_Some (some_diff s q).
Proof. by eexists. Qed.

(** X21: [get_screenshots] touches only the screenshots it fetches:
    every other object of the store is left as it was, with diffs
    enabled or not.  With diffs disabled it returns the fetched list,
    adds no effect (no computation, no write) and changes nothing but
    [prev] in any object. *)
Theorem fetch_touches_only_the_fetched diff_png diff_mask_png bulk_save_ok
    after_refusal SAVE (table : list ref) recording σ log :
  let screenshots :=
    Query._get (H := Screenshot_model σ) table (Query.timestamp recording) in
  let run :=
    get_screenshots diff_png diff_mask_png bulk_save_ok after_refusal SAVE
      table
      (Some recording) (σ, log) in
  (∀ x, x ∉ screenshots → run.2.1 x = σ x)
  ∧ (SAVE = false →
     run.1 = Ok screenshots ∧ run.2.2 = log
     ∧ ∀ x, ∃ q, run.2.1 x = set_prev q (σ x)).
Proof.
  intros screenshots run. subst run. rewrite get_screenshots_unfold.
  fold screenshots. split.
  - intros x Hx.
    assert (link_first screenshots (link screenshots σ) x = σ x) as Hl.
    { rewrite link_first_untouched by done. apply link_untouched.
      intros Hin. apply Hx. by apply (subseteq_drop 1 screenshots). }
    destruct SAVE; [| done].
    by rewrite save_screenshot_diff_frame.
  - intros ->. split_and!; [done | done |]. intros x. cbn [fst snd].
    destruct (link_first_only_prev screenshots (link screenshots σ) x)
      as [q ->].
    destruct (link_only_prev screenshots σ x) as [q' ->]. by exists q.
Qed.

(** X22: when the recording has no screenshot, [get_screenshots]
    returns the empty list and leaves the store and the effects as
    they were, with diffs enabled or not. *)
Theorem fetch_of_nothing diff_png diff_mask_png bulk_save_ok
    after_refusal SAVE (table : list ref) recording σ log :
  (∀ x, x ∈ table →
        recording_timestamp (σ x) ≠ Query.timestamp recording) →
  get_screenshots diff_png diff_mask_png bulk_save_ok after_refusal SAVE
      table
    (Some recording) (σ, log)
  = (Ok [], (σ, log)).
Proof.
  intros H. rewrite get_screenshots_unfold. unfold Query._get.
  rewrite QueryFacts.filter_none by done.
  by destruct SAVE.
Qed.

Lemma fetch_of_nothing_witness :
  get_screenshots some_diff some_diff accept_bulk expired true [2; 0; 1]
    (Some (Query.mkRecording 8 "other")) (store0, [])
  = (Ok [], (store0, [])).
Proof. apply fetch_of_nothing. intros x _. discriminate. Defined.



(** X24: a pass never changes what was captured: [prev], the two
    timestamps and the image of every screenshot are as before, and a
    screenshot that is not in the list is left entirely as it was,
    whether the pass returns or raises. *)
Theorem pass_keeps_captures diff_png diff_mask_png bulk_save_ok
    after_refusal (l : list ref) σ log x :
  let run :=
    save_screenshot_diff diff_png diff_mask_png bulk_save_ok after_refusal
      l (σ, log) in
  prev (run.2.1 x) = prev (σ x)
  ∧ recording_timestamp (run.2.1 x) = recording_timestamp (σ x)
  ∧ timestamp (run.2.1 x) = timestamp (σ x)
  ∧ png_data (run.2.1 x) = png_data (σ x)
  ∧ (x ∉ l → run.2.1 x = σ x).
Proof.
  intros run. subst run.
  pose proof (save_screenshot_diff_frame diff_png diff_mask_png
                bulk_save_ok after_refusal l (σ, log) x) as Hframe.
  destruct (save_screenshot_diff_spec diff_png diff_mask_png bulk_save_ok
              after_refusal l σ log) as (o & σ' & new & tail & E & T & _ & _).
  rewrite E in *. cbn [fst snd] in *.
  destruct (touched_frame _ _ _ T x) as (? & ? & ?).
  split_and!; try done. apply (touched_prev _ _ _ T).
Qed.

(** X25: a pass that returns after computing anything has made its
    write: its effects are the computations followed by one bulk save
    of the whole list and the commit; a pass that returns without
    computing has no effect at all. *)
Theorem returned_pass_has_written diff_png diff_mask_png bulk_save_ok
    after_refusal (l : list ref) σ :
  let run :=
    save_screenshot_diff diff_png diff_mask_png bulk_save_ok after_refusal
      l (σ, []) in
  run.1 = Ok l →
  ∃ new,
    Forall (λ e, is_computation e = true) new
    ∧ run.2.2 = new ++ (if decide (new = []) then []
                        else [BulkSave l; Commit]).
Proof.
  intros run. subst run.
  destruct (save_screenshot_diff_spec diff_png diff_mask_png bulk_save_ok
              after_refusal l σ [])
    as (o & σ' & new & tail & E & T & Hshape & _).
  rewrite E. cbn [fst snd app]. intros ->.
  exists new. split; [apply (touched_only _ _ _ T) |].
  destruct Hshape
    as [(? & ? & _) | [(_ & -> & ->) | [(? & _) | (_ & Hne & ->)]]];
    try discriminate.
  - done.
  - by rewrite decide_False.
Qed.

Lemma returned_pass_has_written_witness :
  ∃ new,
    Forall (λ e, is_computation e = true) new
    ∧ (save_screenshot_diff some_diff some_diff accept_bulk expired [0]
         (link_first [0] store0, [])).2.2
      = new ++ (if decide (new = []) then [] else [BulkSave [0]; Commit]).
Proof.
  apply (returned_pass_has_written some_diff some_diff accept_bulk expired [0]
           (link_first [0] store0)).
  reflexivity.
Defined.

(** X26: when the encoders do not fail and the storage accepts the
    bulk save, the pass returns the list it was given. *)
Theorem pass_returns_when_nothing_fails diff_png diff_mask_png bulk_save_ok
    after_refusal (l : list ref) (st : state) :
  (∀ s q, is_Some (diff_png s q)) →
  (∀ s q, is_Some (diff_mask_png s q)) →
  (∀ objects, bulk_save_ok objects = true) →
  (save_screenshot_diff diff_png diff_mask_png bulk_save_ok after_refusal
      l st).1 = Ok l.
Proof.
  intros H1 H2 H3. rewrite save_screenshot_diff_cases.
  destruct (diff_loop_returns diff_png diff_mask_png l false st H1 H2)
    as [u Hu].
  destruct (diff_loop diff_png diff_mask_png l false st)
    as [[[] | e] st1]; cbn [fst] in *; try done.
  by rewrite H3.
Qed.

Lemma pass_returns_when_nothing_fails_witness :
  (save_screenshot_diff some_diff some_diff accept_bulk expired [0; 1]
     (link_first [0; 1] (link [0; 1] store0), [])).1
  = Ok [0; 1].
Proof.
  apply pass_returns_when_nothing_fails.
  - apply some_diff_total.
  - apply some_diff_total.
  - reflexivity.
Defined.

End DiffChainExtras.
